(** * simulate_strategies: the market engine, its agents and its cash schedule

    A shallow embedding of [simulate_strategies.py].

    Numbers are modelled as the program has them.  The lanes of a market
    ([market_value], [agent.cash], [agent.depot], orders, limits) are numpy
    arrays of dtype [float32]: a lane is an IEEE-754 binary32 value, a
    [spec_float] of the Standard Library taken at precision 24 and maximal
    exponent 128, and every arithmetic operation rounds to nearest, ties to
    even.  Python floats (the payout of the cash schedule) are binary64
    values, precision 53 and maximal exponent 1024.  Python integers (the
    tick counter) are [Z]; [%] and [//] are [Z.modulo] and [Z.div], which
    agree with Python's floored division, and a zero divisor raises.

    An exception is [None]. *)

From Stdlib Require Import ZArith List Bool Lia SpecFloat.
Import ListNotations.
Local Open Scope Z_scope.

(** ** Floating-point data

    Observations on a datum that do not depend on the format. *)

Module SF.
Definition is_nan (x : spec_float) : bool :=
  match x with S754_nan => true | _ => false end.

Definition is_finite (x : spec_float) : bool :=
  match x with S754_zero _ | S754_finite _ _ _ => true | _ => false end.

(** [x >= 0]: both zeros, the positive numbers and [+inf]; not NaN. *)
Definition nonneg (x : spec_float) : bool :=
  match x with
  | S754_zero _ => true
  | S754_finite s _ _ | S754_infinity s => negb s
  | S754_nan => false
  end.

Definition pos_finite (x : spec_float) : bool :=
  match x with S754_finite false _ _ => true | _ => false end.

(** The sign carried by a datum; NaN has none. *)
Definition has_sign (s : bool) (x : spec_float) : bool :=
  match x with
  | S754_zero s' | S754_infinity s' | S754_finite s' _ _ => Bool.eqb s s'
  | S754_nan => false
  end.
End SF.

(** ** Floating-point formats *)

Module F32.
Definition prec : Z := 24.
Definition emax : Z := 128.

Definition add := SFadd prec emax.
Definition sub := SFsub prec emax.
Definition mul := SFmul prec emax.
Definition div := SFdiv prec emax.
Definition ltb := SFltb.
Definition leb := SFleb.
Definition eqb := SFeqb.

Definition zero : spec_float := S754_zero false.
Definition of_Z (z : Z) : spec_float := binary_normalize prec emax z 0 false.
Definition one : spec_float := of_Z 1.

(** [m * 2 ^ e], rounded to binary32. *)
Definition of_scaled (m e : Z) : spec_float := binary_normalize prec emax m e false.

(** [x >= 0] and [x > 0] as numpy evaluates them: false on NaN. *)
Definition ge0 (x : spec_float) : bool := leb zero x.
Definition gt0 (x : spec_float) : bool := ltb zero x.

(** A well-formed binary32 datum: the mantissa has at most 24 bits and the
    exponent is the canonical one.  Every float32 a numpy array holds is. *)
Definition wf (x : spec_float) : bool := valid_binary prec emax x.

(** A positive finite float32, what a price is meant to be. *)
Definition pos_wf (x : spec_float) : bool := SF.pos_finite x && wf x.

(** [np.minimum] on one lane: [(a < b or isnan(a)) ? a : b], so that a NaN
    on either side propagates. *)
Definition minimum (a b : spec_float) : spec_float :=
  if ltb a b || SF.is_nan a then a else b.

(** A boolean lane converted to float32, as [order *= mask] does. *)
Definition of_bool (b : bool) : spec_float := if b then one else zero.
End F32.

Module F64.
Definition prec : Z := 53.
Definition emax : Z := 1024.

Definition div := SFdiv prec emax.
Definition zero : spec_float := S754_zero false.
Definition of_Z (z : Z) : spec_float := binary_normalize prec emax z 0 false.
Definition of_scaled (m e : Z) : spec_float := binary_normalize prec emax m e false.

(** The literal [0.9999]: the binary64 value nearest to 9999/10000,
    [0x3FEFFF2E48E8A71E]. *)
Definition lit_0_9999 : spec_float := div (of_Z 9999) (of_Z 10000).
End F64.

(** A Python float meeting a float32 array is converted to float32. *)
Definition f32_of_f64 (x : spec_float) : spec_float :=
  match x with
  | S754_finite s m e => binary_normalize F32.prec F32.emax (cond_Zopp s (Zpos m)) e s
  | _ => x
  end.

(** ** Lanes: one-dimensional float32 arrays

    Every array of a market has the shape [(nbr_simulations,)] that
    [Market.__init__] gives it, and the operations are element-wise.  numpy
    raises on operands whose shapes differ; [map2] is only meant for arrays
    of one shape, and what is stated of arbitrary orders assumes it. *)

Definition lanes := list spec_float.

Fixpoint map2 {A B C : Type} (f : A -> B -> C) (xs : list A) (ys : list B) : list C :=
  match xs, ys with
  | x :: xs', y :: ys' => f x y :: map2 f xs' ys'
  | _, _ => []
  end.

Module Np.
Definition zeros (n : nat) : lanes := repeat F32.zero n.
Definition ones (n : nat) : lanes := repeat F32.one n.
Definition zeros_like (a : lanes) : lanes := map (fun _ => F32.zero) a.

Definition add (a b : lanes) : lanes := map2 F32.add a b.
Definition sub (a b : lanes) : lanes := map2 F32.sub a b.
Definition mul (a b : lanes) : lanes := map2 F32.mul a b.
Definition div (a b : lanes) : lanes := map2 F32.div a b.
Definition minimum (a b : lanes) : lanes := map2 F32.minimum a b.
Definition le (a b : lanes) : list bool := map2 F32.leb a b.

(** array (+) Python scalar and array (x) Python scalar *)
Definition add_scalar (a : lanes) (s : spec_float) : lanes :=
  map (fun x => F32.add x (f32_of_f64 s)) a.
Definition mul_scalar (a : lanes) (s : spec_float) : lanes :=
  map (fun x => F32.mul x (f32_of_f64 s)) a.

(** float32 array (x) boolean array *)
Definition mul_mask (a : lanes) (m : list bool) : lanes :=
  map2 (fun x b => F32.mul x (F32.of_bool b)) a m.
End Np.

(** ** Agents

    [Agent] is an open class: any object with attributes [cash] and [depot]
    and a method [order(market_value, tick)].  A class is given by the type
    of the instance attributes of its own and by its [order] method, which
    reads [self.cash] and [self.depot], may update the attributes of its own
    and may raise. *)

Record AgentClass : Type := {
  attrs : Type;
  order : attrs -> lanes -> lanes -> lanes -> Z -> option (lanes * attrs)
    (* self, self.cash, self.depot, market_value, tick *)
}.

Record Agent : Type := mkAgent {
  cls : AgentClass;
  self : attrs cls;
  cash : lanes;
  depot : lanes
}.

Definition TICKS_PER_YEAR : Z := 10000.

Definition KeepCashAgent : AgentClass := {|
  attrs := unit;
  order := fun s cash _ _market_value _tick => Some (Np.zeros_like cash, s)
|}.

Definition AllInAgent : AgentClass := {|
  attrs := unit;
  order := fun s cash _ market_value _tick => Some (Np.div cash market_value, s)
|}.

(** [LimitOrderAgent] has the attribute [limit] only once [order] has been
    called at a checkpoint tick; reading it before raises. *)
Definition limit_wait_ticks : Z := 10.
Definition limit_ratio_value : spec_float := F64.lit_0_9999.

Definition LimitOrderAgent_order (limit : option lanes) (cash _depot market_value : lanes)
    (tick : Z) : option (lanes * option lanes) :=
  let limit :=
    if tick mod limit_wait_ticks =? 0
    then Some (Np.mul_scalar market_value limit_ratio_value)
    else limit in
  let order := Np.div cash market_value in
  match limit with
  | Some l => Some (Np.mul_mask order (Np.le market_value l), limit)
  | None => None
  end.

Definition LimitOrderAgent : AgentClass := {|
  attrs := option lanes;
  order := LimitOrderAgent_order
|}.

(** Freshly constructed instances, before [Market.__init__] gives them
    their [cash] and [depot]. *)
Definition new_KeepCashAgent : Agent := mkAgent KeepCashAgent tt [] [].
Definition new_AllInAgent : Agent := mkAgent AllInAgent tt [] [].
Definition new_LimitOrderAgent : Agent := mkAgent LimitOrderAgent None [] [].

Definition get_total_value (a : Agent) (market_value : lanes) : lanes :=
  Np.add (cash a) (Np.mul (depot a) market_value).

(** ** Market

    The schedule and the price model are arguments of [Market.__init__]:
    any callable.  The schedule is a function of the tick; the price model,
    which updates [market_value] in place, is the function from the array
    and the tick to the array it leaves ([RealSimpleMarketSim] multiplies
    every lane by one plus a normal draw). *)

Record Market : Type := mkMarket {
  agents : list Agent;
  cash_injection : Z -> spec_float;        (* tick -> Python float *)
  market_sim : lanes -> Z -> lanes;        (* the effect on [market_value] *)
  tick_count : Z;
  market_value : lanes
}.

Definition Market_init (agents : list Agent) (cash_injection : Z -> spec_float)
    (market_sim : lanes -> Z -> lanes) (nbr_simulations : nat) : Market :=
  {| agents :=
       map (fun a => mkAgent (cls a) (self a)
                       (Np.zeros nbr_simulations) (Np.zeros nbr_simulations)) agents;
     cash_injection := cash_injection;
     market_sim := market_sim;
     tick_count := 0;
     market_value := Np.ones nbr_simulations |}.

(** Lines 21-25 of [Market.trade]: the settlement of an order. *)
Definition settle (market_value order : lanes) (a : Agent) : Agent :=
  let order_value := Np.mul market_value order in
  let order_value := Np.minimum order_value (cash a) in
  let order := Np.div order_value market_value in
  mkAgent (cls a) (self a) (Np.sub (cash a) order_value) (Np.add (depot a) order).

Definition Market_trade (market_value : lanes) (tick_count : Z) (a : Agent) : option Agent :=
  match order (cls a) (self a) (cash a) (depot a) market_value tick_count with
  | Some (o, s) => Some (settle market_value o (mkAgent (cls a) s (cash a) (depot a)))
  | None => None
  end.

Definition inject (cash_injection : spec_float) (a : Agent) : Agent :=
  mkAgent (cls a) (self a) (Np.add_scalar (cash a) cash_injection) (depot a).

(** The loop of [Market.tick] over the agents. *)
Fixpoint tick_agents (cash_injection : spec_float) (market_value : lanes) (tick_count : Z)
    (l : list Agent) : option (list Agent) :=
  match l with
  | [] => Some []
  | a :: l' =>
      match Market_trade market_value tick_count (inject cash_injection a) with
      | Some a' =>
          match tick_agents cash_injection market_value tick_count l' with
          | Some l'' => Some (a' :: l'')
          | None => None
          end
      | None => None
      end
  end.

Definition Market_tick (m : Market) : option Market :=
  let inj := cash_injection m (tick_count m) in
  match tick_agents inj (market_value m) (tick_count m) (agents m) with
  | Some ags =>
      Some {| agents := ags;
              cash_injection := cash_injection m;
              market_sim := market_sim m;
              tick_count := tick_count m + 1;
              market_value := market_sim m (market_value m) (tick_count m) |}
  | None => None
  end.

(** [n] calls of [tick()]. *)
Fixpoint run (n : nat) (m : Market) : option Market :=
  match n with
  | O => Some m
  | S n' => match run n' m with Some m' => Market_tick m' | None => None end
  end.

(** ** SimpleCashInjection *)

Record SimpleCashInjection : Type := {
  cash_per_year : spec_float;
  payouts_per_year : Z;
  payout_every_n_ticks : Z;
  payout : spec_float
}.

(** The body of [__init__], with the two literals it stores first taken as
    arguments.  [%] raises on a zero divisor and [assert] on a false
    condition. *)
Definition SimpleCashInjection_init_with (cash_per_year : spec_float) (payouts_per_year : Z)
    : option SimpleCashInjection :=
  if payouts_per_year =? 0 then None
  else if negb (TICKS_PER_YEAR mod payouts_per_year =? 0) then None
  else Some {| cash_per_year := cash_per_year;
               payouts_per_year := payouts_per_year;
               payout_every_n_ticks := TICKS_PER_YEAR / payouts_per_year;
               payout := F64.div cash_per_year (F64.of_Z payouts_per_year) |}.

Definition SimpleCashInjection_init : option SimpleCashInjection :=
  SimpleCashInjection_init_with (F64.of_Z 10000) 500.

Definition SimpleCashInjection_call (s : SimpleCashInjection) (tick : Z) : option spec_float :=
  if payout_every_n_ticks s =? 0 then None
  else if tick mod payout_every_n_ticks s =? 0 then Some (payout s)
  else Some F64.zero.

(** ** The tick as the specification words it

    Four phases: (a) the injection is added to the cash of every agent,
    (b) every agent trades, in registration order, (c) the price model
    advances [market_value], (d) [tick_count] is incremented. *)

Fixpoint trade_all (market_value : lanes) (tick_count : Z) (l : list Agent)
    : option (list Agent) :=
  match l with
  | [] => Some []
  | a :: l' =>
      match Market_trade market_value tick_count a with
      | Some a' =>
          match trade_all market_value tick_count l' with
          | Some l'' => Some (a' :: l'')
          | None => None
          end
      | None => None
      end
  end.

Definition tick_phased (m : Market) : option Market :=
  let injection := cash_injection m (tick_count m) in
  let injected := map (inject injection) (agents m) in
  match trade_all (market_value m) (tick_count m) injected with
  | Some traded =>
      let advanced := market_sim m (market_value m) (tick_count m) in
      Some {| agents := traded;
              cash_injection := cash_injection m;
              market_sim := market_sim m;
              tick_count := tick_count m + 1;
              market_value := advanced |}
  | None => None
  end.

(** ** Conditions on a run *)

(** An instance of one of the three strategies of the program. *)
Definition is_provided (a : Agent) : Prop :=
  cls a = KeepCashAgent \/ cls a = AllInAgent \/ cls a = LimitOrderAgent.

(** [n] lanes, each a positive finite price. *)
Definition positive_lanes (n : nat) (v : lanes) : Prop :=
  length v = n /\ forallb F32.pos_wf v = true.

Definition keeps_positive (market_sim : lanes -> Z -> lanes) (n : nat) : Prop :=
  forall v t, positive_lanes n v -> positive_lanes n (market_sim v t).

(** No lane of the agent overflows in the coming tick: its cash after the
    injection, and the quotient of that cash by the price, are finite. *)
Definition in_range (cash_injection : spec_float) (market_value : lanes) (a : Agent) : bool :=
  let c := Np.add_scalar (cash a) cash_injection in
  forallb SF.is_finite c && forallb SF.is_finite (Np.div c market_value).

Definition no_overflow (m : Market) : bool :=
  forallb (in_range (cash_injection m (tick_count m)) (market_value m)) (agents m).

(** No lane overflows in the first [k] ticks run from [m]. *)
Fixpoint no_overflow_run (k : nat) (m : Market) : bool :=
  match k with
  | O => true
  | S k' =>
      no_overflow_run k' m &&
      match run k' m with Some m' => no_overflow m' | None => false end
  end.

(** What an agent holds in its lanes between two ticks. *)
Definition agent_inv (a : Agent) : Prop :=
  forallb F32.wf (cash a) = true /\
  forallb SF.nonneg (cash a) = true /\
  forallb SF.nonneg (depot a) = true.

Definition never_raises (a : Agent) : Prop :=
  forall c d mv t, order (cls a) (self a) c d mv t <> None.

(** An agent may be called at tick [t]: its [order] does not raise. *)
Definition ready (t : Z) (a : Agent) : Prop :=
  forall c d mv, order (cls a) (self a) c d mv t <> None.

(** ** One lane of a trade

    What [Market.trade] computes in a lane where the price is [m], the
    order [o], the cash [c] and the depot [d]. *)

Definition executed (m o c : spec_float) : spec_float := F32.minimum (F32.mul m o) c.
Definition cash_after (m o c : spec_float) : spec_float := F32.sub c (executed m o c).
Definition depot_after (m o c d : spec_float) : spec_float :=
  F32.add d (F32.div (executed m o c) m).

(** ** Further agents and markets, for examples

    [Agent] being open, [Market.trade] takes orders that the three
    strategies never place.  [FixedOrderAgent] is the subclass whose [order]
    returns the array it was built with. *)

Definition FixedOrderAgent : AgentClass := {|
  attrs := lanes;
  order := fun o _ _ _market_value _tick => Some (o, o)
|}.

(** One lane, a [KeepCashAgent] and an [AllInAgent], 100 paid at every tick
    and a price that never moves. *)
Definition scenario : Market :=
  Market_init [new_KeepCashAgent; new_AllInAgent]
    (fun _ => F64.of_Z 100) (fun market_value _ => market_value) 1.

(** One lane, the three strategies, the schedule of the program and a
    price that never moves. *)
Definition calm_market : Market :=
  Market_init [new_KeepCashAgent; new_AllInAgent; new_LimitOrderAgent]
    (fun t => if t mod 20 =? 0 then F64.of_Z 20 else F64.zero)
    (fun market_value _ => market_value) 1.

(** One lane, a [LimitOrderAgent], [2^127] paid at every tick and a price
    that halves after the first tick. *)
Definition overflowing_market : Market :=
  Market_init [new_LimitOrderAgent]
    (fun _ => F64.of_scaled 1 127) (fun _ _ => [F32.of_scaled 1 (-1)]) 1.

(** ** The rest of the program *)

(** binary64 operations, and a float32 taken to binary64 (exactly). *)
Definition f64_add := SFadd F64.prec F64.emax.
Definition f64_mul := SFmul F64.prec F64.emax.

Definition f64_of_f32 (x : spec_float) : spec_float :=
  match x with
  | S754_finite s m e => binary_normalize F64.prec F64.emax (cond_Zopp s (Zpos m)) e s
  | _ => x
  end.

(** [RealSimpleMarketSim.__call__], the array [returns] that
    [np.random.normal] draws being given: [market_value *= (1.0 + returns)].
    The draws are binary64, so the product is taken in binary64 and stored
    back as float32. *)
Definition RealSimpleMarketSim_call (returns : list spec_float) (market_value : lanes)
    : lanes :=
  map2 (fun m r => f32_of_f64 (f64_mul (f64_of_f32 m) (f64_add (F64.of_Z 1) r)))
    market_value returns.

(** The pairwise tally of the driver: [awins.sum()] and [bwins.sum()]. *)
Definition gtb (x y : spec_float) : bool :=
  match SFcompare x y with Some Gt => true | _ => false end.

Definition count (b : list bool) : Z :=
  fold_right (fun (x : bool) (n : Z) => if x then n + 1 else n) 0 b.

Definition awins (a b : Agent) (market_value : lanes) : Z :=
  count (map2 gtb (get_total_value a market_value) (get_total_value b market_value)).

Definition bwins (a b : Agent) (market_value : lanes) : Z :=
  count (map2 F32.ltb (get_total_value a market_value) (get_total_value b market_value)).


(** The price model keeps the number of lanes. *)
Definition keeps_shape (market_sim : lanes -> Z -> lanes) (n : nat) : Prop :=
  forall v t, length v = n -> length (market_sim v t) = n.

(** The orders of the agent have [n] lanes when its cash and the price
    have. *)
Definition orders_shaped (n : nat) (a : Agent) : Prop :=
  forall c d mv t o s,
    length c = n -> length mv = n ->
    order (cls a) (self a) c d mv t = Some (o, s) -> length o = n.

(** * Floating-point lemmas

    Facts on [SpecFloat]'s operations, for any format. *)

Section Format.
Variables prec emax : Z.
Hypothesis Hprec : 0 < prec.
Hypothesis Hemax : prec < emax.

Let fexp := SpecFloat.fexp prec emax.
Let emin := SpecFloat.emin prec emax.

Lemma fexp_ge_emin e : emin <= fexp e.
Proof. unfold fexp, emin, SpecFloat.fexp. lia. Qed.

Lemma fexp_mono a b : a <= b -> fexp a <= fexp b.
Proof. unfold fexp, emin, SpecFloat.fexp. lia. Qed.

Lemma fexp_fixed_below x : x <= fexp x -> fexp x = emin.
Proof. unfold fexp, emin, SpecFloat.fexp. lia. Qed.

Lemma emin_nonpos : emin <= 0.
Proof. unfold emin, SpecFloat.emin. lia. Qed.

Lemma digits2_pos_size p : digits2_pos p = Pos.size p.
Proof. induction p; simpl; congruence. Qed.

Lemma Zdigits2_log2 m : 0 < m -> Zdigits2 m = Z.log2 m + 1.
Proof.
  destruct m as [|p|p]; try lia. intros _. simpl.
  rewrite digits2_pos_size.
  destruct p; simpl; rewrite ?Pos2Z.inj_succ; lia.
Qed.

Lemma Zdigits2_nonneg m : 0 <= Zdigits2 m.
Proof. destruct m; simpl; lia. Qed.

Lemma Zdigits2_mono a b : 0 <= a -> a <= b -> Zdigits2 a <= Zdigits2 b.
Proof.
  intros Ha Hab. destruct (Z.eq_dec a 0) as [->|Hn].
  - apply Zdigits2_nonneg.
  - rewrite !Zdigits2_log2 by lia. pose proof (Z.log2_le_mono a b Hab). lia.
Qed.

(** *** Shifting a mantissa to the right *)

Lemma shr_1_m mrs : 0 <= shr_m mrs -> shr_m (shr_1 mrs) = shr_m mrs / 2.
Proof.
  destruct mrs as [m r s]. simpl. intros Hm.
  rewrite <- Z.div2_div.
  destruct m as [|[p|p|]|p]; try reflexivity; lia.
Qed.

Lemma iter_shr_1_m p : forall mrs, 0 <= shr_m mrs ->
  shr_m (iter_pos shr_1 p mrs) = shr_m mrs / 2 ^ Zpos p.
Proof.
  induction p as [p IH|p IH|]; intros mrs Hm; simpl iter_pos.
  - assert (H1 : 0 <= shr_m (shr_1 mrs)).
    { rewrite shr_1_m by assumption. apply Z.div_pos; lia. }
    assert (H2 : 0 <= shr_m (iter_pos shr_1 p (shr_1 mrs))).
    { rewrite IH by assumption. apply Z.div_pos; [assumption|]. apply Z.pow_pos_nonneg; lia. }
    rewrite IH by assumption. rewrite IH by assumption. rewrite shr_1_m by assumption.
    rewrite !Z.div_div by (try apply Z.pow_pos_nonneg; lia).
    f_equal. rewrite Pos2Z.inj_xI.
    replace (2 * Z.pos p + 1) with (1 + Z.pos p + Z.pos p) by lia.
    rewrite !Z.pow_add_r by lia. rewrite Z.pow_1_r. ring.
  - assert (H2 : 0 <= shr_m (iter_pos shr_1 p mrs)).
    { rewrite IH by assumption. apply Z.div_pos; [assumption|]. apply Z.pow_pos_nonneg; lia. }
    rewrite IH by assumption. rewrite IH by assumption.
    rewrite !Z.div_div by (try apply Z.pow_pos_nonneg; lia).
    f_equal. rewrite Pos2Z.inj_xO. rewrite <- Z.pow_add_r by lia. f_equal. lia.
  - rewrite shr_1_m by assumption. reflexivity.
Qed.

Lemma shr_record_of_loc_m m l : shr_m (shr_record_of_loc m l) = m.
Proof. destruct l as [|[]]; reflexivity. Qed.

Lemma shr_fexp_spec m e l : 0 <= m ->
  shr_m (fst (shr_fexp prec emax m e l)) = m / 2 ^ Z.max 0 (fexp (Zdigits2 m + e) - e) /\
  snd (shr_fexp prec emax m e l) = e + Z.max 0 (fexp (Zdigits2 m + e) - e).
Proof.
  intros Hm. unfold shr_fexp, shr. fold fexp.
  destruct (fexp (Zdigits2 m + e) - e) as [|p|p] eqn:En; simpl fst; simpl snd.
  - rewrite shr_record_of_loc_m. simpl. rewrite Z.div_1_r. lia.
  - rewrite iter_shr_1_m by (rewrite shr_record_of_loc_m; assumption).
    rewrite shr_record_of_loc_m. rewrite Z.max_r by lia. lia.
  - rewrite shr_record_of_loc_m. rewrite Z.max_l by lia. simpl. rewrite Z.div_1_r. lia.
Qed.

Lemma shr_fexp_nonneg m e l : 0 <= m -> 0 <= shr_m (fst (shr_fexp prec emax m e l)).
Proof.
  intros Hm. destruct (shr_fexp_spec m e l Hm) as [-> _].
  apply Z.div_pos; [assumption|]. apply Z.pow_pos_nonneg; lia.
Qed.

(** A mantissa that carries too many digits for its exponent becomes
    canonical once it is shifted to the exponent [fexp] asks for. *)
Lemma canonical_shift m e :
  0 < m -> e <= fexp (Zdigits2 m + e) ->
  (0 < m / 2 ^ (fexp (Zdigits2 m + e) - e) ->
     fexp (Zdigits2 (m / 2 ^ (fexp (Zdigits2 m + e) - e)) + fexp (Zdigits2 m + e))
     = fexp (Zdigits2 m + e)) /\
  (m / 2 ^ (fexp (Zdigits2 m + e) - e) = 0 -> fexp (Zdigits2 m + e) = emin).
Proof.
  intros Hm He.
  set (e' := fexp (Zdigits2 m + e)) in *. set (k := e' - e).
  assert (Hk : 0 <= k) by (unfold k; lia).
  rewrite <- (Z.shiftr_div_pow2 m k Hk).
  split; intros H.
  - assert (Hl : k <= Z.log2 m).
    { destruct (Z_lt_le_dec (Z.log2 m) k) as [Hlt|]; [|assumption].
      rewrite (Z.shiftr_eq_0 m k) in H by lia. lia. }
    rewrite (Zdigits2_log2 _ H), Z.log2_shiftr by assumption.
    rewrite Z.max_r by lia.
    replace (Z.log2 m - k + 1 + e') with (Zdigits2 m + e); [reflexivity|].
    rewrite (Zdigits2_log2 m Hm). unfold k. lia.
  - apply Z.shiftr_eq_0_iff in H. destruct H as [H|[_ H]]; [lia|].
    apply fexp_fixed_below. fold e'. rewrite (Zdigits2_log2 m Hm). unfold k in H. lia.
Qed.

Lemma round_nearest_even_cases m l :
  round_nearest_even m l = m \/ round_nearest_even m l = m + 1.
Proof.
  destruct l as [|[]]; simpl; auto. destruct (Z.even m); auto.
Qed.

Lemma binary_round_aux_sign s m e l :
  0 <= m -> SF.has_sign s (binary_round_aux prec emax s m e l) = true.
Proof.
  intros Hm. unfold binary_round_aux.
  destruct (shr_fexp prec emax m e l) as [mrs1 e1] eqn:E1.
  pose proof (shr_fexp_nonneg m e l Hm) as H1. rewrite E1 in H1. simpl in H1.
  set (m2 := round_nearest_even (shr_m mrs1) (loc_of_shr_record mrs1)).
  assert (H2 : 0 <= m2).
  { unfold m2. destruct (round_nearest_even_cases (shr_m mrs1) (loc_of_shr_record mrs1)) as [->| ->]; lia. }
  destruct (shr_fexp prec emax m2 e1 loc_Exact) as [mrs2 e2] eqn:E2.
  pose proof (shr_fexp_nonneg m2 e1 loc_Exact H2) as H3. rewrite E2 in H3. simpl in H3.
  destruct (shr_m mrs2) as [|p|p]; try lia.
  - simpl. apply Bool.eqb_reflx.
  - destruct (e2 <=? emax - prec); simpl; apply Bool.eqb_reflx.
Qed.

Lemma binary_round_aux_valid s m e l :
  0 <= m -> e <= fexp (Zdigits2 m + e) ->
  valid_binary prec emax (binary_round_aux prec emax s m e l) = true.
Proof.
  intros Hm He. unfold binary_round_aux.
  destruct (shr_fexp prec emax m e l) as [mrs1 e1] eqn:E1.
  destruct (shr_fexp_spec m e l Hm) as [Hm1 He1]. rewrite E1 in Hm1, He1. simpl in Hm1, He1.
  rewrite Z.max_r in Hm1, He1 by lia.
  assert (He1' : e1 = fexp (Zdigits2 m + e)) by lia. clear He1.
  set (m2 := round_nearest_even (shr_m mrs1) (loc_of_shr_record mrs1)).
  assert (H1 : 0 <= shr_m mrs1).
  { rewrite Hm1. apply Z.div_pos; [assumption|]. apply Z.pow_pos_nonneg; lia. }
  assert (H2 : shr_m mrs1 <= m2 <= shr_m mrs1 + 1).
  { unfold m2. destruct (round_nearest_even_cases (shr_m mrs1) (loc_of_shr_record mrs1)) as [->| ->]; lia. }
  destruct (shr_fexp prec emax m2 e1 loc_Exact) as [mrs2 e2] eqn:E2.
  destruct (shr_fexp_spec m2 e1 loc_Exact ltac:(lia)) as [Hm3 He3].
  rewrite E2 in Hm3, He3. simpl in Hm3, He3.
  destruct (shr_m mrs2) as [|p|p] eqn:Ep; try reflexivity.
  destruct (e2 <=? emax - prec) eqn:Eb; [|reflexivity].
  simpl. unfold bounded. rewrite Eb, Bool.andb_true_r.
  unfold canonical_mantissa. apply Z.eqb_eq. fold fexp.
  assert (Hm2 : 0 < m2).
  { destruct (Z.eq_dec m2 0) as [E0|]; [|lia]. rewrite E0 in Hm3. rewrite Z.div_0_l in Hm3; [lia|].
    apply Z.pow_nonzero; lia. }
  assert (Hpre : e1 <= fexp (Zdigits2 m2 + e1)).
  { destruct (Z.eq_dec (shr_m mrs1) 0) as [E0|Hn0].
    - assert (e1 = emin).
      { destruct (Z.eq_dec m 0) as [->|Hmn].
        - simpl in He. rewrite He1'. simpl. apply fexp_fixed_below. exact He.
        - destruct (canonical_shift m e ltac:(lia) He) as [_ Hz].
          rewrite He1'. apply Hz. rewrite <- Hm1. exact E0. }
      subst e1. rewrite H. apply fexp_ge_emin.
    - destruct (Z.eq_dec m 0) as [->|Hmn].
      { rewrite Z.div_0_l in Hm1; [lia|]. apply Z.pow_nonzero; lia. }
      destruct (canonical_shift m e ltac:(lia) He) as [Hc _].
      rewrite <- Hm1, <- He1' in Hc. specialize (Hc ltac:(lia)).
      rewrite <- Hc at 1. apply fexp_mono.
      pose proof (Zdigits2_mono (shr_m mrs1) m2 H1 ltac:(lia)). lia. }
  rewrite Z.max_r in Hm3, He3 by lia.
  destruct (canonical_shift m2 e1 Hm2 Hpre) as [Hc _].
  replace (e1 + (fexp (Zdigits2 m2 + e1) - e1)) with (fexp (Zdigits2 m2 + e1)) in He3 by lia.
  rewrite <- Hm3, <- He3 in Hc. specialize (Hc ltac:(lia)). exact Hc.
Qed.

(** *** Rounding an integer mantissa: [binary_round], [binary_normalize] *)

Lemma iter_xO mx d : Zpos (Pos.iter xO mx d) = Zpos mx * 2 ^ Zpos d.
Proof.
  induction d as [|d IH] using Pos.peano_ind.
  - simpl. lia.
  - rewrite Pos.iter_succ, Pos2Z.inj_succ, Z.pow_succ_r by lia.
    rewrite Pos2Z.inj_xO, IH. ring.
Qed.

Lemma shl_align_spec mx ex ex' :
  snd (shl_align mx ex ex') = Z.min ex ex' /\
  Zpos (fst (shl_align mx ex ex')) = Zpos mx * 2 ^ (ex - Z.min ex ex').
Proof.
  unfold shl_align. destruct (ex' - ex) as [|d|d] eqn:Ed; simpl fst; simpl snd.
  - rewrite Z.min_l by lia. rewrite Z.sub_diag. simpl. lia.
  - rewrite Z.min_l by lia. rewrite Z.sub_diag. simpl. lia.
  - rewrite Z.min_r by lia. rewrite iter_xO.
    replace (ex - ex') with (Zpos d) by lia. lia.
Qed.

Lemma binary_round_valid s mx ex :
  valid_binary prec emax (binary_round prec emax s mx ex) = true.
Proof.
  unfold binary_round. fold fexp.
  destruct (shl_align_spec mx ex (fexp (Z.pos (digits2_pos mx) + ex))) as [He Hm].
  destruct (shl_align mx ex (fexp (Z.pos (digits2_pos mx) + ex))) as [mz ez].
  cbn [fst snd] in He, Hm. apply binary_round_aux_valid; [lia|]. fold fexp.
  change (Z.pos (digits2_pos mx)) with (Zdigits2 (Zpos mx)) in He, Hm.
  rewrite (Zdigits2_log2 (Zpos mx)) in He, Hm by lia.
  rewrite (Zdigits2_log2 (Zpos mz)) by lia. rewrite Hm.
  rewrite Z.log2_mul_pow2 by lia.
  match goal with |- _ <= fexp ?a =>
    replace a with (Z.log2 (Z.pos mx) + 1 + ex) by lia end.
  lia.
Qed.

Lemma binary_round_sign s mx ex :
  SF.has_sign s (binary_round prec emax s mx ex) = true.
Proof.
  unfold binary_round.
  destruct (shl_align mx ex _) as [mz ez]. apply binary_round_aux_sign. lia.
Qed.

Lemma binary_normalize_valid m e szero :
  valid_binary prec emax (binary_normalize prec emax m e szero) = true.
Proof. destruct m; simpl; auto using binary_round_valid. Qed.

Lemma binary_normalize_sign_pos m e szero :
  0 < m -> SF.has_sign false (binary_normalize prec emax m e szero) = true.
Proof. destruct m; try lia. intros _. apply binary_round_sign. Qed.

Lemma binary_normalize_sign_neg m e szero :
  m < 0 -> SF.has_sign true (binary_normalize prec emax m e szero) = true.
Proof. destruct m; try lia. intros _. apply binary_round_sign. Qed.

(** *** The four operations keep data well formed *)

Lemma SFadd_valid x y :
  valid_binary prec emax x = true -> valid_binary prec emax y = true ->
  valid_binary prec emax (SFadd prec emax x y) = true.
Proof.
  intros Hx Hy.
  destruct x as [sx|sx| |sx mx ex], y as [sy|sy| |sy my ey]; simpl SFadd;
    try reflexivity; try assumption;
    try (destruct sx, sy; reflexivity).
  apply binary_normalize_valid.
Qed.

Lemma SFsub_valid x y :
  valid_binary prec emax x = true -> valid_binary prec emax y = true ->
  valid_binary prec emax (SFsub prec emax x y) = true.
Proof.
  intros Hx Hy.
  destruct x as [sx|sx| |sx mx ex], y as [sy|sy| |sy my ey]; simpl SFsub;
    try reflexivity; try assumption;
    try (destruct sx, sy; reflexivity).
  apply binary_normalize_valid.
Qed.

Lemma bounded_canonical m e :
  bounded prec emax m e = true ->
  fexp (Zdigits2 (Zpos m) + e) = e /\ e <= emax - prec.
Proof.
  unfold bounded, canonical_mantissa. intros H.
  apply andb_prop in H. destruct H as [H1 H2].
  apply Z.eqb_eq in H1. apply Z.leb_le in H2. auto.
Qed.

Lemma SFmul_valid x y :
  valid_binary prec emax x = true -> valid_binary prec emax y = true ->
  valid_binary prec emax (SFmul prec emax x y) = true.
Proof.
  intros Hx Hy.
  destruct x as [sx|sx| |sx mx ex], y as [sy|sy| |sy my ey]; simpl SFmul;
    try reflexivity.
  simpl in Hx, Hy.
  destruct (bounded_canonical _ _ Hx) as [Cx _].
  destruct (bounded_canonical _ _ Hy) as [Cy _].
  apply binary_round_aux_valid; [lia|]. fold fexp.
  rewrite Zdigits2_log2 in * by lia.
  pose proof (Z.log2_mul_below (Zpos mx) (Zpos my) ltac:(lia) ltac:(lia)) as Hl.
  rewrite Pos2Z.inj_mul.
  pose proof (Z.log2_nonneg (Zpos mx)). pose proof (Z.log2_nonneg (Zpos my)).
  pose proof emin_nonpos.
  unfold fexp, emin, SpecFloat.fexp in *. lia.
Qed.

Lemma SFdiv_core_binary_spec m1 e1 m2 e2 :
  0 < m1 -> 0 < m2 ->
  let '(q, e', _) := SFdiv_core_binary prec emax m1 e1 m2 e2 in
  0 <= q /\ e' <= fexp (Zdigits2 q + e').
Proof.
  intros H1 H2. unfold SFdiv_core_binary. fold fexp.
  set (d1 := Zdigits2 m1). set (d2 := Zdigits2 m2).
  set (e' := Z.min (fexp (d1 + e1 - (d2 + e2))) (e1 - e2)).
  set (s := e1 - e2 - e').
  assert (Hs : 0 <= s) by (unfold s, e'; lia).
  set (m' := match s with Z.pos _ => Z.shiftl m1 s | Z0 => m1 | Z.neg _ => 0 end).
  assert (Hm' : m' = m1 * 2 ^ s).
  { unfold m'. destruct s as [|p|p];
      [rewrite Z.pow_0_r; lia | apply Z.shiftl_mul_pow2; lia | lia]. }
  destruct (Z.div_eucl m' m2) as [q r] eqn:E.
  assert (Hq : q = m' / m2) by (unfold Z.div; rewrite E; reflexivity).
  assert (Hq0 : 0 <= q).
  { rewrite Hq. apply Z.div_pos; [|lia]. rewrite Hm'. apply Z.mul_nonneg_nonneg; [lia|].
    apply Z.pow_nonneg. lia. }
  split; [assumption|].
  apply Z.le_trans with (fexp (d1 + e1 - (d2 + e2))); [unfold e'; lia|].
  apply fexp_mono.
  assert (Hd : d1 + s - d2 <= Zdigits2 q).
  { destruct (Z_le_gt_dec (d1 + s - d2) 0) as [Hle|Hgt].
    - pose proof (Zdigits2_nonneg q). lia.
    - unfold d1, d2 in *. rewrite (Zdigits2_log2 m1 H1), (Zdigits2_log2 m2 H2) in *.
      assert (Hlow : 2 ^ (Z.log2 m1 + s - Z.log2 m2 - 1) <= q).
      { rewrite Hq. apply Z.div_le_lower_bound; [lia|].
        destruct (Z.log2_spec m1 H1) as [L1 _]. destruct (Z.log2_spec m2 H2) as [_ U2].
        pose proof (Z.log2_nonneg m1). pose proof (Z.log2_nonneg m2).
        apply Z.le_trans with (2 ^ Z.succ (Z.log2 m2) * 2 ^ (Z.log2 m1 + s - Z.log2 m2 - 1)).
        - apply Z.mul_le_mono_nonneg_r; [apply Z.pow_nonneg; lia | lia].
        - rewrite <- Z.pow_add_r by lia.
          replace (Z.succ (Z.log2 m2) + (Z.log2 m1 + s - Z.log2 m2 - 1)) with (Z.log2 m1 + s) by lia.
          rewrite Z.pow_add_r by lia. rewrite Hm'.
          apply Z.mul_le_mono_nonneg_r; [apply Z.pow_nonneg; lia | lia]. }
      assert (Hqpos : 0 < q).
      { pose proof (Z.pow_pos_nonneg 2 (Z.log2 m1 + s - Z.log2 m2 - 1) ltac:(lia) ltac:(lia)). lia. }
      rewrite (Zdigits2_log2 q Hqpos).
      apply (Z.log2_le_pow2 q _ Hqpos) in Hlow. lia. }
  unfold s in Hd. lia.
Qed.

Lemma SFdiv_valid x y :
  valid_binary prec emax (SFdiv prec emax x y) = true.
Proof.
  destruct x as [sx|sx| |sx mx ex], y as [sy|sy| |sy my ey]; simpl SFdiv;
    try reflexivity.
  pose proof (SFdiv_core_binary_spec (Zpos mx) ex (Zpos my) ey ltac:(lia) ltac:(lia)) as H.
  destruct (SFdiv_core_binary prec emax (Z.pos mx) ex (Z.pos my) ey) as [[q e'] l].
  destruct H as [Hq He]. apply binary_round_aux_valid; assumption.
Qed.

(** *** Signs *)

Lemma SFleb_zero_nonneg x : SFleb (S754_zero false) x = SF.nonneg x.
Proof. destruct x as [s|[]| |[] m e]; reflexivity. Qed.

Lemma has_sign_nonneg x : SF.has_sign false x = true -> SF.nonneg x = true.
Proof. destruct x as [s|[]| |[] m e]; simpl; congruence. Qed.

Lemma SFadd_nonneg x y :
  SF.nonneg x = true -> SF.nonneg y = true -> SF.nonneg (SFadd prec emax x y) = true.
Proof.
  destruct x as [sx|[]| |[] mx ex], y as [sy|[]| |[] my ey]; simpl; try congruence;
    try (destruct sx; try destruct sy; reflexivity).
  intros _ _. apply has_sign_nonneg. apply binary_round_sign.
Qed.

Lemma SFmul_nonneg x y :
  SF.nonneg x = true -> SF.nonneg y = true -> SF.is_finite x = true -> SF.is_finite y = true ->
  SF.nonneg (SFmul prec emax x y) = true.
Proof.
  destruct x as [sx|[]| |[] mx ex], y as [sy|[]| |[] my ey]; simpl; try congruence.
  intros _ _ _ _. apply has_sign_nonneg. apply binary_round_aux_sign. lia.
Qed.

Lemma SFmul_pos_nonneg x y :
  SF.pos_finite x = true -> SF.nonneg y = true -> SF.nonneg (SFmul prec emax x y) = true.
Proof.
  destruct x as [sx|[]| |[] mx ex], y as [sy|[]| |[] my ey]; simpl; try congruence.
  intros _ _. apply has_sign_nonneg. apply binary_round_aux_sign. lia.
Qed.

Lemma SFdiv_nonneg x y :
  SF.nonneg x = true -> SF.pos_finite y = true -> SF.nonneg (SFdiv prec emax x y) = true.
Proof.
  destruct x as [sx|[]| |[] mx ex], y as [sy|[]| |[] my ey]; simpl; try congruence.
  intros _ _.
  pose proof (SFdiv_core_binary_spec (Zpos mx) ex (Zpos my) ey ltac:(lia) ltac:(lia)) as H.
  destruct (SFdiv_core_binary prec emax (Z.pos mx) ex (Z.pos my) ey) as [[q e'] l].
  destruct H as [Hq _]. apply has_sign_nonneg. apply binary_round_aux_sign. assumption.
Qed.

Lemma SFsub_diag x : SF.is_finite x = true -> SFsub prec emax x x = S754_zero false.
Proof.
  destruct x as [[]|s| |s m e]; simpl; try congruence; intros _; try reflexivity.
  rewrite Z.sub_diag. reflexivity.
Qed.

(** *** Comparison *)

Lemma SFcompare_refl x : x <> S754_nan -> SFcompare x x = Some Eq.
Proof.
  destruct x as [s|[]| |[] m e]; simpl; try congruence; intros _;
    rewrite Z.compare_refl, Pos.compare_cont_refl; reflexivity.
Qed.

Lemma SFleb_refl x : x <> S754_nan -> SFleb x x = true.
Proof. intros H. unfold SFleb. rewrite SFcompare_refl by assumption. reflexivity. Qed.

Lemma SFltb_irrefl x : SFltb x x = false.
Proof.
  destruct x as [s|[]| |[] m e]; try reflexivity; unfold SFltb; simpl;
    rewrite Z.compare_refl, Pos.compare_cont_refl; reflexivity.
Qed.

Lemma SFleb_not_ltb_eqb x y : SFleb x y = true -> SFltb x y = false -> SFeqb x y = true.
Proof.
  unfold SFleb, SFltb, SFeqb. destruct (SFcompare x y) as [[]|]; congruence.
Qed.

Lemma SFltb_leb x y : SFltb x y = true -> SFleb x y = true.
Proof.
  unfold SFleb, SFltb. destruct (SFcompare x y) as [[]|]; congruence.
Qed.

(** On well-formed data the order of the exponents is the order of the
    values: a number with the larger exponent has a full mantissa. *)
Lemma aligned_lt mx ex my ey :
  bounded prec emax mx ex = true -> bounded prec emax my ey = true ->
  ey < ex ->
  Zpos my < Zpos mx * 2 ^ (ex - ey).
Proof.
  intros Hx Hy Hlt.
  destruct (bounded_canonical _ _ Hx) as [Cx _].
  destruct (bounded_canonical _ _ Hy) as [Cy _].
  rewrite Zdigits2_log2 in Cx, Cy by lia.
  pose proof (Z.log2_nonneg (Zpos mx)). pose proof (Z.log2_nonneg (Zpos my)).
  assert (Lx : Z.log2 (Zpos mx) = prec - 1).
  { unfold fexp, emin, SpecFloat.fexp in *. lia. }
  assert (Ly : Z.log2 (Zpos my) + 1 <= prec).
  { unfold fexp, emin, SpecFloat.fexp in *. lia. }
  destruct (Z.log2_spec (Zpos mx) ltac:(lia)) as [L1 _].
  destruct (Z.log2_spec (Zpos my) ltac:(lia)) as [_ U2].
  rewrite Lx in L1.
  apply Z.lt_le_trans with (2 ^ prec).
  - apply Z.lt_le_trans with (2 ^ Z.succ (Z.log2 (Zpos my))); [assumption|].
    apply Z.pow_le_mono_r; lia.
  - assert (P1 : 0 <= 2 ^ (prec - 1)) by (apply Z.pow_nonneg; lia).
    pose proof (Z.pow_le_mono_r 2 1 (ex - ey) ltac:(lia) ltac:(lia)) as P2.
    rewrite Z.pow_1_r in P2.
    assert (E : 2 ^ prec = 2 ^ (prec - 1) * 2).
    { replace prec with (Z.succ (prec - 1)) at 1 by lia.
      rewrite Z.pow_succ_r by lia. ring. }
    rewrite E. apply Z.mul_le_mono_nonneg; lia.
Qed.

Lemma SFsub_nonneg x y :
  valid_binary prec emax x = true -> valid_binary prec emax y = true ->
  SF.nonneg x = true -> SF.is_finite x = true -> SFltb y x = true ->
  SF.nonneg (SFsub prec emax x y) = true.
Proof.
  intros Vx Vy Nx Fx Hlt.
  destruct x as [sx|[]| |[] mx ex]; simpl in Nx, Fx; try congruence.
  - destruct y as [sy|[]| |[] my ey]; unfold SFltb in Hlt; simpl in Hlt; try congruence;
      reflexivity.
  - destruct y as [sy|[]| |[] my ey]; unfold SFltb in Hlt; simpl in Hlt; try congruence;
      try reflexivity.
    + unfold SFsub. apply has_sign_nonneg. apply binary_normalize_sign_pos.
      unfold cond_Zopp. lia.
    + simpl in Vx, Vy. unfold SFsub.
      apply has_sign_nonneg. apply binary_normalize_sign_pos.
      unfold cond_Zopp.
      destruct (shl_align_spec mx ex (Z.min ex ey)) as [_ ->].
      destruct (shl_align_spec my ey (Z.min ex ey)) as [_ ->].
      destruct (Z.compare_spec ey ex) as [Heq|Hl|Hg]; try congruence.
      * subst ey. rewrite !Z.min_id, Z.sub_diag, Z.pow_0_r.
        change (Pos.compare_cont Eq my mx) with (Pos.compare my mx) in Hlt.
        destruct (Pos.compare_spec my mx); try congruence. lia.
      * rewrite (Z.min_r ex ey) by lia. rewrite Z.min_id, Z.min_r by lia.
        rewrite Z.sub_diag, Z.pow_0_r.
        pose proof (aligned_lt mx ex my ey Vx Vy Hl). lia.
Qed.

End Format.

(** * binary32 lanes *)

Lemma prec32_pos : 0 < F32.prec.
Proof. reflexivity. Qed.

Lemma prec32_lt_emax : F32.prec < F32.emax.
Proof. reflexivity. Qed.

Lemma ge0_nonneg x : F32.ge0 x = SF.nonneg x.
Proof. apply SFleb_zero_nonneg. Qed.

Lemma nonneg_not_nan x : SF.nonneg x = true -> SF.is_nan x = false.
Proof. destruct x; simpl; congruence. Qed.

Lemma has_sign_not_nan s x : SF.has_sign s x = true -> SF.is_nan x = false.
Proof. destruct x; simpl; congruence. Qed.

Lemma pos_finite_nonneg x : SF.pos_finite x = true -> SF.nonneg x = true.
Proof. destruct x as [s|[]| |[] m e]; simpl; congruence. Qed.

Lemma pos_wf_split x :
  F32.pos_wf x = true -> SF.pos_finite x = true /\ F32.wf x = true.
Proof. unfold F32.pos_wf. intros H. apply andb_prop in H. exact H. Qed.

Lemma wf_add x y : F32.wf x = true -> F32.wf y = true -> F32.wf (F32.add x y) = true.
Proof. apply SFadd_valid, prec32_pos. Qed.

Lemma wf_sub x y : F32.wf x = true -> F32.wf y = true -> F32.wf (F32.sub x y) = true.
Proof. apply SFsub_valid, prec32_pos. Qed.

Lemma wf_mul x y : F32.wf x = true -> F32.wf y = true -> F32.wf (F32.mul x y) = true.
Proof. apply SFmul_valid; [apply prec32_pos | apply prec32_lt_emax]. Qed.

Lemma wf_div x y : F32.wf (F32.div x y) = true.
Proof. apply SFdiv_valid, prec32_pos. Qed.

Lemma wf_of_bool b : F32.wf (F32.of_bool b) = true.
Proof. destruct b; reflexivity. Qed.

Lemma wf_of_f64 x : F32.wf (f32_of_f64 x) = true.
Proof.
  destruct x as [s|s| |s m e]; try reflexivity.
  apply binary_normalize_valid, prec32_pos.
Qed.

Lemma nonneg_of_f64 x : SF.nonneg x = true -> SF.nonneg (f32_of_f64 x) = true.
Proof.
  destruct x as [s|s| |[] m e]; simpl; try congruence.
  intros _. apply has_sign_nonneg, binary_round_sign.
Qed.

Lemma wf_minimum a b : F32.wf a = true -> F32.wf b = true -> F32.wf (F32.minimum a b) = true.
Proof. unfold F32.minimum. destruct (F32.ltb a b || SF.is_nan a); auto. Qed.

Lemma minimum_cases a b :
  SF.is_nan a = false ->
  (F32.ltb a b = true /\ F32.minimum a b = a) \/
  (F32.ltb a b = false /\ F32.minimum a b = b).
Proof.
  intros Ha. unfold F32.minimum. rewrite Ha, Bool.orb_false_r.
  destruct (F32.ltb a b); auto.
Qed.

Lemma minimum_nonneg a b :
  SF.nonneg a = true -> SF.nonneg b = true -> SF.nonneg (F32.minimum a b) = true.
Proof. unfold F32.minimum. destruct (F32.ltb a b || SF.is_nan a); auto. Qed.

(** The clamped notional is at most the cash, NaN apart. *)
Lemma minimum_le_r a b :
  SF.is_nan (F32.minimum a b) = false -> F32.leb (F32.minimum a b) b = true.
Proof.
  unfold F32.minimum. destruct (F32.ltb a b) eqn:E; simpl.
  - intros _. apply SFltb_leb. exact E.
  - destruct (SF.is_nan a) eqn:En; [congruence|].
    intros Hb. apply SFleb_refl. destruct b; simpl in Hb; congruence.
Qed.

Lemma mul_not_nan m o :
  SF.pos_finite m = true -> SF.is_nan o = false -> SF.is_nan (F32.mul m o) = false.
Proof.
  destruct m as [s|[]| |[] mm em], o as [so|so| |so mo eo]; simpl; try congruence.
  intros _ _. apply (has_sign_not_nan (xorb false so)).
  apply binary_round_aux_sign. lia.
Qed.

Lemma cash_after_wf m o c :
  F32.wf m = true -> F32.wf o = true -> F32.wf c = true -> F32.wf (cash_after m o c) = true.
Proof.
  intros Hm Ho Hc. unfold cash_after, executed.
  apply wf_sub; [assumption|]. apply wf_minimum; [|assumption]. apply wf_mul; assumption.
Qed.

Lemma cash_after_nonneg m o c :
  F32.pos_wf m = true -> F32.wf o = true -> SF.is_nan o = false ->
  F32.wf c = true -> SF.nonneg c = true -> SF.is_finite c = true ->
  SF.nonneg (cash_after m o c) = true.
Proof.
  intros Hm Ho Hn Hc Nc Fc. apply pos_wf_split in Hm. destruct Hm as [Pm Wm].
  unfold cash_after, executed.
  destruct (minimum_cases (F32.mul m o) c (mul_not_nan m o Pm Hn)) as [[Hlt ->]|[_ ->]].
  - apply (SFsub_nonneg F32.prec F32.emax prec32_pos); auto.
    apply wf_mul; assumption.
  - unfold F32.sub. rewrite SFsub_diag by assumption. reflexivity.
Qed.

Lemma executed_nonneg m o c :
  SF.pos_finite m = true -> SF.nonneg o = true -> SF.nonneg c = true ->
  SF.nonneg (executed m o c) = true.
Proof.
  intros Pm No Nc. apply minimum_nonneg; [|assumption].
  apply SFmul_pos_nonneg; assumption.
Qed.

Lemma depot_after_nonneg m o c d :
  SF.pos_finite m = true -> SF.nonneg o = true -> SF.nonneg c = true ->
  SF.nonneg d = true -> SF.nonneg (depot_after m o c d) = true.
Proof.
  intros Pm No Nc Nd. unfold depot_after.
  apply SFadd_nonneg; [assumption|].
  apply SFdiv_nonneg; [|assumption]. apply executed_nonneg; assumption.
Qed.

(** * Arrays *)

Lemma nth_error_map2 {A B C : Type} (f : A -> B -> C) (a : list A) (b : list B) (i : nat) :
  nth_error (map2 f a b) i =
  match nth_error a i, nth_error b i with
  | Some x, Some y => Some (f x y)
  | _, _ => None
  end.
Proof.
  revert b i. induction a as [|x a IH]; intros [|y b] [|i]; simpl; try reflexivity.
  - destruct (nth_error a i); reflexivity.
  - apply IH.
Qed.

Lemma forallb_nth_error {A : Type} (p : A -> bool) (l : list A) :
  forallb p l = true <-> (forall i x, nth_error l i = Some x -> p x = true).
Proof.
  rewrite forallb_forall. split; intros H.
  - intros i x Hx. apply H. eapply nth_error_In. exact Hx.
  - intros x Hx. apply In_nth_error in Hx. destruct Hx as [i Hi]. eapply H. exact Hi.
Qed.

Lemma forallb_map2 {A B C : Type} (p : C -> bool) (f : A -> B -> C) (a : list A) (b : list B) :
  (forall x y, In x a -> In y b -> p (f x y) = true) -> forallb p (map2 f a b) = true.
Proof.
  intros H. apply forallb_nth_error. intros i z Hz.
  rewrite nth_error_map2 in Hz.
  destruct (nth_error a i) as [x|] eqn:Ea; [|discriminate].
  destruct (nth_error b i) as [y|] eqn:Eb; [|discriminate].
  inversion Hz. subst z. apply H; eapply nth_error_In; eassumption.
Qed.

Lemma length_map2 {A B C : Type} (f : A -> B -> C) (a : list A) (b : list B) :
  length a = length b -> length (map2 f a b) = length a.
Proof.
  revert b. induction a as [|x a IH]; intros [|y b] H; simpl in *; try congruence.
  f_equal. apply IH. congruence.
Qed.

Lemma settle_lane mv o a i m oi c d :
  nth_error mv i = Some m -> nth_error o i = Some oi ->
  nth_error (cash a) i = Some c -> nth_error (depot a) i = Some d ->
  nth_error (cash (settle mv o a)) i = Some (cash_after m oi c) /\
  nth_error (depot (settle mv o a)) i = Some (depot_after m oi c d).
Proof.
  intros Hm Ho Hc Hd. unfold settle. simpl cash. simpl depot.
  unfold Np.sub, Np.add, Np.div, Np.minimum, Np.mul.
  rewrite !nth_error_map2, Hm, Ho, Hc, Hd. split; reflexivity.
Qed.

Lemma settle_cash_lane mv o a i x :
  nth_error (cash (settle mv o a)) i = Some x ->
  exists m oi c,
    nth_error mv i = Some m /\ nth_error o i = Some oi /\
    nth_error (cash a) i = Some c /\ x = cash_after m oi c.
Proof.
  unfold settle. simpl cash. unfold Np.sub, Np.minimum, Np.mul.
  rewrite !nth_error_map2.
  destruct (nth_error (cash a) i) as [c|]; [|discriminate].
  destruct (nth_error mv i) as [m|]; [|discriminate].
  destruct (nth_error o i) as [oi|]; [|discriminate].
  intros H. inversion H. exists m, oi, c. auto.
Qed.

Lemma settle_depot_lane mv o a i x :
  nth_error (depot (settle mv o a)) i = Some x ->
  exists m oi c d,
    nth_error mv i = Some m /\ nth_error o i = Some oi /\
    nth_error (cash a) i = Some c /\ nth_error (depot a) i = Some d /\
    x = depot_after m oi c d.
Proof.
  unfold settle. simpl depot. unfold Np.add, Np.div, Np.minimum, Np.mul.
  rewrite !nth_error_map2.
  destruct (nth_error (depot a) i) as [d|]; [|discriminate].
  destruct (nth_error mv i) as [m|]; [|destruct (nth_error o i); discriminate].
  destruct (nth_error o i) as [oi|]; [|discriminate].
  destruct (nth_error (cash a) i) as [c|]; [|discriminate].
  intros H. inversion H. exists m, oi, c, d. auto.
Qed.

(** * The tick *)

Lemma tick_agents_phased inj mv t l :
  tick_agents inj mv t l = trade_all mv t (map (inject inj) l).
Proof.
  induction l as [|a l IH]; simpl; [reflexivity|].
  rewrite IH. reflexivity.
Qed.

(** C3: [Market.tick] is the four-phase sequence of the specification --
    the injection added to every agent, then every agent trading in
    registration order, then the price advanced, then the counter
    incremented -- although the code injects and trades agent by agent:
    both raise on the same markets and leave the same market otherwise.
    A tick that returns has incremented [tick_count] by exactly 1. *)
Theorem tick_refines_phases (m : Market) :
  Market_tick m = tick_phased m /\
  option_map tick_count (Market_tick m)
  = option_map (fun _ => tick_count m + 1) (Market_tick m).
Proof.
  split.
  - unfold Market_tick, tick_phased. rewrite tick_agents_phased. reflexivity.
  - unfold Market_tick.
    destruct (tick_agents _ _ _ _); reflexivity.
Qed.

Lemma tick_agents_nth inj mv t l l' i a :
  tick_agents inj mv t l = Some l' -> nth_error l i = Some a ->
  exists a', nth_error l' i = Some a' /\ Market_trade mv t (inject inj a) = Some a'.
Proof.
  revert l' i. induction l as [|b l IH]; intros l' i Hl Ha.
  - destruct i; discriminate.
  - simpl in Hl.
    destruct (Market_trade mv t (inject inj b)) as [b'|] eqn:Eb; [|discriminate].
    destruct (tick_agents inj mv t l) as [l''|] eqn:El; [|discriminate].
    inversion Hl. subst l'. destruct i as [|i]; simpl in *.
    + inversion Ha. subst b. exists b'. auto.
    + apply (IH l'' i eq_refl Ha).
Qed.

(** * The end-to-end scenario *)

(** C5: in the one-lane market with a [KeepCashAgent] and an [AllInAgent],
    100 paid at every tick and a price that stays at 1.0, five calls of
    [tick()] leave the first agent with cash 500 and depot 0 and the second
    with cash 0 and depot 500. *)
Theorem end_to_end_scenario :
  option_map (fun m => (tick_count m, map (fun a => (cash a, depot a)) (agents m)))
    (run 5 scenario)
  = Some (5, [ ([F32.of_Z 500], [F32.zero]); ([F32.zero], [F32.of_Z 500]) ]).
Proof. vm_compute. reflexivity. Qed.

(** * The limit of a LimitOrderAgent *)

Lemma LimitOrderAgent_order_limit limit c d mv t o limit' :
  LimitOrderAgent_order limit c d mv t = Some (o, limit') ->
  limit' = if t mod limit_wait_ticks =? 0
           then Some (Np.mul_scalar mv limit_ratio_value) else limit.
Proof.
  unfold LimitOrderAgent_order.
  destruct (t mod limit_wait_ticks =? 0).
  - intros H. inversion H. reflexivity.
  - destruct limit as [l|]; [|discriminate]. intros H. inversion H. reflexivity.
Qed.

(** C6: over a tick the [limit] of a [LimitOrderAgent] changes only when
    the tick index is a multiple of 10, and is then [market_value * 0.9999]
    for the price of that tick; at every other tick it is the limit the
    agent had. *)
Theorem limit_checkpoint (m m' : Market) (i : nat) (limit : option lanes) (c d : lanes) :
  Market_tick m = Some m' ->
  nth_error (agents m) i = Some (mkAgent LimitOrderAgent limit c d) ->
  exists c' d',
    nth_error (agents m') i
    = Some (mkAgent LimitOrderAgent
              (if tick_count m mod 10 =? 0
               then Some (Np.mul_scalar (market_value m) limit_ratio_value)
               else limit)
              c' d').
Proof.
  unfold Market_tick. intros Ht Ha.
  destruct (tick_agents _ _ _ (agents m)) as [ags|] eqn:E; [|discriminate].
  inversion Ht. subst m'. simpl agents.
  destruct (tick_agents_nth _ _ _ _ _ _ _ E Ha) as [a' [Hn Htr]].
  unfold Market_trade, inject in Htr. simpl in Htr.
  destruct (LimitOrderAgent_order limit _ d (market_value m) (tick_count m))
    as [[o limit']|] eqn:Eo; [|discriminate].
  apply LimitOrderAgent_order_limit in Eo. subst limit'.
  inversion Htr. subst a'. unfold settle. simpl.
  eexists. eexists. exact Hn.
Qed.

Lemma limit_checkpoint_witness :
  exists m' c' d',
    Market_tick calm_market = Some m' /\
    nth_error (agents m') 2
    = Some (mkAgent LimitOrderAgent
              (Some (Np.mul_scalar (market_value calm_market) limit_ratio_value)) c' d').
Proof.
  eexists.
  destruct (limit_checkpoint calm_market _ 2 None (Np.zeros 1) (Np.zeros 1)
              eq_refl eq_refl) as [c' [d' H]].
  exists c', d'. split; [reflexivity | exact H].
Defined.

(** * The cash schedule *)

(** C7: with 10000 ticks a year and 500 payouts a year the schedule is
    built, and returns exactly 20.0 at every tick index that is a multiple
    of 20, 0 included, and exactly 0.0 at every other index. *)
Theorem payout_periodicity :
  exists s,
    SimpleCashInjection_init = Some s /\
    forall t : Z,
      SimpleCashInjection_call s t
      = Some (if t mod 20 =? 0 then F64.of_Z 20 else F64.zero).
Proof.
  eexists. split; [reflexivity|].
  intros t. unfold SimpleCashInjection_call. cbn [payout_every_n_ticks payout].
  change (TICKS_PER_YEAR / 500) with 20.
  change (20 =? 0) with false. cbv iota.
  destruct (t mod 20 =? 0); [|reflexivity].
  vm_compute. reflexivity.
Qed.

(** C8: building the schedule raises exactly when the number of payouts a
    year does not divide the 10000 ticks of a year; when it is built, the
    payout is the annual amount divided by the number of payouts, and no
    call of the schedule raises. *)
Theorem construction_fails_iff_not_divisible (cash_per_year : spec_float) (payouts_per_year : Z) :
  (SimpleCashInjection_init_with cash_per_year payouts_per_year = None
   <-> ~ (payouts_per_year | TICKS_PER_YEAR)) /\
  (forall s,
     SimpleCashInjection_init_with cash_per_year payouts_per_year = Some s ->
     payout s = F64.div cash_per_year (F64.of_Z payouts_per_year) /\
     forall t, SimpleCashInjection_call s t <> None).
Proof.
  unfold SimpleCashInjection_init_with.
  destruct (payouts_per_year =? 0) eqn:E0.
  - apply Z.eqb_eq in E0. subst payouts_per_year. split.
    + split; [|reflexivity]. intros _ H. apply Z.divide_0_l in H. discriminate H.
    + intros s H. discriminate H.
  - apply Z.eqb_neq in E0.
    destruct (TICKS_PER_YEAR mod payouts_per_year =? 0) eqn:Em; simpl negb; cbv iota.
    + apply Z.eqb_eq in Em. split.
      * split; [discriminate|]. intros H. exfalso. apply H.
        apply Z.mod_divide; assumption.
      * intros s H. inversion H. subst s. clear H. split; [reflexivity|].
        intros t. unfold SimpleCashInjection_call. cbn [payout_every_n_ticks payout].
        assert (Hq : TICKS_PER_YEAR / payouts_per_year <> 0).
        { intros Hz. apply Z.div_exact in Em; [|assumption].
          rewrite Hz, Z.mul_0_r in Em. discriminate Em. }
        apply Z.eqb_neq in Hq. rewrite Hq.
        destruct (t mod (TICKS_PER_YEAR / payouts_per_year) =? 0); discriminate.
    + apply Z.eqb_neq in Em. split.
      * split; [|reflexivity]. intros _ H. apply Em. apply Z.mod_divide; assumption.
      * intros s H. discriminate H.
Qed.

Lemma construction_fails_iff_not_divisible_witness :
  exists s,
    SimpleCashInjection_init_with (F64.of_Z 10000) 500 = Some s /\
    payout s = F64.div (F64.of_Z 10000) (F64.of_Z 500) /\
    forall t, SimpleCashInjection_call s t <> None.
Proof.
  eexists. split; [reflexivity|].
  apply (proj2 (construction_fails_iff_not_divisible (F64.of_Z 10000) 500)).
  reflexivity.
Defined.

(** * One trade *)

Lemma Market_trade_settle (a : Agent) mv t o s :
  order (cls a) (self a) (cash a) (depot a) mv t = Some (o, s) ->
  Market_trade mv t a = Some (settle mv o (mkAgent (cls a) s (cash a) (depot a))).
Proof. intros H. unfold Market_trade. rewrite H. reflexivity. Qed.

(** C1, as amended: in every lane a trade leaves the float32 difference
    between the cash and the executed order value, the requested value
    [market_value * order] clamped by [np.minimum] to the cash; the executed
    value is at most the cash of the lane unless it is NaN.  (That the cash
    decreases by the executed value exactly is not claimed: the subtraction
    rounds.) *)
Theorem trade_cash_conservation (a : Agent) (mv : lanes) (t : Z) (o : lanes)
    (s : attrs (cls a)) (i : nat) (m oi c d : spec_float) :
  order (cls a) (self a) (cash a) (depot a) mv t = Some (o, s) ->
  length mv = length (cash a) -> length o = length (cash a) ->
  length (depot a) = length (cash a) ->
  nth_error mv i = Some m -> nth_error o i = Some oi ->
  nth_error (cash a) i = Some c -> nth_error (depot a) i = Some d ->
  exists a',
    Market_trade mv t a = Some a' /\
    nth_error (cash a') i = Some (F32.sub c (F32.minimum (F32.mul m oi) c)) /\
    (SF.is_nan (F32.minimum (F32.mul m oi) c) = false ->
     F32.leb (F32.minimum (F32.mul m oi) c) c = true).
Proof.
  intros Ho _ _ _ Hm Hoi Hc Hd.
  eexists. split; [apply Market_trade_settle; exact Ho|]. split.
  - apply (settle_lane mv o (mkAgent (cls a) s (cash a) (depot a)) i m oi c d); assumption.
  - apply minimum_le_r.
Qed.

Lemma trade_cash_conservation_witness :
  exists a',
    Market_trade [F32.of_Z 3] 0 (mkAgent AllInAgent tt [F32.of_Z 20] [F32.zero]) = Some a' /\
    nth_error (cash a') 0
    = Some (F32.sub (F32.of_Z 20)
              (F32.minimum (F32.mul (F32.of_Z 3) (F32.div (F32.of_Z 20) (F32.of_Z 3)))
                 (F32.of_Z 20))) /\
    (SF.is_nan (F32.minimum (F32.mul (F32.of_Z 3) (F32.div (F32.of_Z 20) (F32.of_Z 3)))
                  (F32.of_Z 20)) = false ->
     F32.leb (F32.minimum (F32.mul (F32.of_Z 3) (F32.div (F32.of_Z 20) (F32.of_Z 3)))
                (F32.of_Z 20)) (F32.of_Z 20) = true).
Proof.
  apply (trade_cash_conservation (mkAgent AllInAgent tt [F32.of_Z 20] [F32.zero])
           [F32.of_Z 3] 0 [F32.div (F32.of_Z 20) (F32.of_Z 3)] tt 0%nat
           (F32.of_Z 3) (F32.div (F32.of_Z 20) (F32.of_Z 3)) (F32.of_Z 20) F32.zero);
    reflexivity.
Defined.

(** C1 fails as stated.  An agent holding 33554432.0 that orders one unit
    at the price 1.0 is executed for 1.0 and keeps 33554432.0, the float32
    nearest to 33554431: the cash has not decreased by the executed value.
    And a [LimitOrderAgent] holding [2^127] at the price [2^-30] orders NaN
    (an overflown quotient times a zero mask): the executed value is NaN,
    neither equal to the decrease of the cash nor at most the cash. *)
Lemma trade_cash_conservation_counterexample :
  (let a := mkAgent FixedOrderAgent [F32.one] [F32.of_Z 33554432] [F32.zero] in
   let ex := F32.minimum (F32.mul F32.one F32.one) (F32.of_Z 33554432) in
   option_map cash (Market_trade [F32.one] 0 a) = Some [F32.of_Z 33554432] /\
   ex = F32.one /\
   F32.eqb (F32.sub (F32.of_Z 33554432) (F32.of_Z 33554432)) ex = false) /\
  (let a := mkAgent LimitOrderAgent None [F32.of_scaled 1 127] [F32.zero] in
   let m := F32.of_scaled 1 (-30) in
   order LimitOrderAgent None (cash a) (depot a) [m] 0
     = Some ([S754_nan], Some [F32.mul m (f32_of_f64 limit_ratio_value)]) /\
   option_map cash (Market_trade [m] 0 a) = Some [S754_nan] /\
   F32.minimum (F32.mul m S754_nan) (F32.of_scaled 1 127) = S754_nan /\
   F32.leb S754_nan (F32.of_scaled 1 127) = false /\
   F32.eqb (F32.sub (F32.of_scaled 1 127) S754_nan) S754_nan = false).
Proof. vm_compute. repeat split; reflexivity. Qed.

(** C4, as amended: in a lane where the requested value
    [market_value * order] is at most the cash, the clamp leaves that value
    (the executed value compares equal to it), the cash becomes its float32
    difference with the executed value and the depot grows by the executed
    value divided again by the price.  (That this quotient is the requested
    order is not claimed: product and quotient both round.) *)
Theorem affordable_order_not_clamped (a : Agent) (mv : lanes) (t : Z) (o : lanes)
    (s : attrs (cls a)) (i : nat) (m oi c d : spec_float) :
  order (cls a) (self a) (cash a) (depot a) mv t = Some (o, s) ->
  length mv = length (cash a) -> length o = length (cash a) ->
  length (depot a) = length (cash a) ->
  nth_error mv i = Some m -> nth_error o i = Some oi ->
  nth_error (cash a) i = Some c -> nth_error (depot a) i = Some d ->
  F32.leb (F32.mul m oi) c = true ->
  exists a',
    Market_trade mv t a = Some a' /\
    F32.eqb (F32.minimum (F32.mul m oi) c) (F32.mul m oi) = true /\
    nth_error (cash a') i = Some (F32.sub c (F32.minimum (F32.mul m oi) c)) /\
    nth_error (depot a') i
    = Some (F32.add d (F32.div (F32.minimum (F32.mul m oi) c) m)).
Proof.
  intros Ho _ _ _ Hm Hoi Hc Hd Hle.
  eexists. split; [apply Market_trade_settle; exact Ho|]. split.
  - unfold F32.minimum. destruct (F32.ltb (F32.mul m oi) c) eqn:Elt; simpl.
    + unfold F32.eqb, SFeqb. rewrite SFcompare_refl; [reflexivity|].
      intros En. rewrite En in Elt. discriminate Elt.
    + destruct (SF.is_nan (F32.mul m oi)) eqn:En.
      * destruct (F32.mul m oi); discriminate.
      * pose proof (SFleb_not_ltb_eqb _ _ Hle Elt) as He.
        unfold F32.eqb, SFeqb in *. unfold SFleb in Hle.
        destruct (F32.mul m oi) as [s1|[]| |[] m1 e1], c as [s2|[]| |[] m2 e2];
          simpl in *; try discriminate; try reflexivity;
          destruct (e1 ?= e2) eqn:Ee; try discriminate;
          rewrite Z.compare_antisym, Ee; simpl;
          change (Pos.compare_cont Eq m1 m2) with (Pos.compare m1 m2) in He;
          change (Pos.compare_cont Eq m2 m1) with (Pos.compare m2 m1);
          rewrite Pos.compare_antisym;
          destruct (m1 ?= m2)%positive; try discriminate; reflexivity.
  - apply (settle_lane mv o (mkAgent (cls a) s (cash a) (depot a)) i m oi c d); assumption.
Qed.

Lemma affordable_order_not_clamped_witness :
  let o := F32.div F32.one (F32.of_Z 19) in
  exists a',
    Market_trade [F32.of_Z 3] 0 (mkAgent FixedOrderAgent [o] [F32.one] [F32.zero]) = Some a' /\
    F32.eqb (F32.minimum (F32.mul (F32.of_Z 3) o) F32.one) (F32.mul (F32.of_Z 3) o) = true /\
    nth_error (cash a') 0
    = Some (F32.sub F32.one (F32.minimum (F32.mul (F32.of_Z 3) o) F32.one)) /\
    nth_error (depot a') 0
    = Some (F32.add F32.zero (F32.div (F32.minimum (F32.mul (F32.of_Z 3) o) F32.one) (F32.of_Z 3))).
Proof.
  intros o.
  apply (affordable_order_not_clamped (mkAgent FixedOrderAgent [o] [F32.one] [F32.zero])
           [F32.of_Z 3] 0 [o] [o] 0%nat (F32.of_Z 3) o F32.one F32.zero);
    reflexivity.
Defined.

(** C4 fails as stated.  At the price 3.0 an agent holding 1.0 orders
    [fl(1/19)] units, 14128182 * 2^-28; the requested value, 0.15789473, is
    affordable, yet the depot, empty before, receives 14128181 * 2^-28
    units: the order is re-derived as [(3.0 * order) / 3.0], and in float32
    that is not the order. *)
Lemma affordable_order_not_clamped_counterexample :
  let o := F32.div F32.one (F32.of_Z 19) in
  let a := mkAgent FixedOrderAgent [o] [F32.one] [F32.zero] in
  o = S754_finite false 14128182 (-28) /\
  F32.leb (F32.mul (F32.of_Z 3) o) F32.one = true /\
  option_map depot (Market_trade [F32.of_Z 3] 0 a)
  = Some [S754_finite false 14128181 (-28)] /\
  F32.eqb (S754_finite false 14128181 (-28)) o = false.
Proof. vm_compute. repeat split; reflexivity. Qed.

(** * The AllInAgent *)

(** C9, as amended: an [AllInAgent] trading in a lane with a positive
    finite price [m] and a finite cash [c >= 0] is left with a cash that is
    again [>= 0].  When the float32 product [m * (c / m)] is not below [c],
    the cash is exactly +0.0 and the depot has grown by [c / m]; when it is
    below (product and quotient round), the agent spends that product only,
    keeps the residue [c - m * (c / m)] and the depot grows by the product
    divided again by the price. *)
Theorem all_in_trade (mv : lanes) (t : Z) (c0 d0 : lanes) (i : nat) (m c d : spec_float) :
  length mv = length c0 -> length d0 = length c0 ->
  nth_error mv i = Some m -> nth_error c0 i = Some c -> nth_error d0 i = Some d ->
  F32.pos_wf m = true -> F32.wf c = true -> F32.ge0 c = true -> SF.is_finite c = true ->
  exists a' c' d',
    Market_trade mv t (mkAgent AllInAgent tt c0 d0) = Some a' /\
    nth_error (cash a') i = Some c' /\ nth_error (depot a') i = Some d' /\
    F32.ge0 c' = true /\
    (F32.ltb (F32.mul m (F32.div c m)) c = false ->
       c' = F32.zero /\ d' = F32.add d (F32.div c m)) /\
    (F32.ltb (F32.mul m (F32.div c m)) c = true ->
       c' = F32.sub c (F32.mul m (F32.div c m)) /\
       d' = F32.add d (F32.div (F32.mul m (F32.div c m)) m)).
Proof.
  intros _ _ Hm Hc Hd Pm Wc Nc Fc.
  rewrite ge0_nonneg in Nc.
  destruct (pos_wf_split m Pm) as [Pf Wm].
  assert (Ho : nth_error (Np.div c0 mv) i = Some (F32.div c m)).
  { unfold Np.div. rewrite nth_error_map2, Hc, Hm. reflexivity. }
  destruct (settle_lane mv (Np.div c0 mv) (mkAgent AllInAgent tt c0 d0) i m
              (F32.div c m) c d Hm Ho Hc Hd) as [Hc' Hd'].
  exists (settle mv (Np.div c0 mv) (mkAgent AllInAgent tt c0 d0)),
    (cash_after m (F32.div c m) c), (depot_after m (F32.div c m) c d).
  split; [reflexivity|]. split; [exact Hc'|]. split; [exact Hd'|].
  assert (No : SF.nonneg (F32.div c m) = true) by (apply SFdiv_nonneg; assumption).
  split.
  - rewrite ge0_nonneg. apply cash_after_nonneg; auto using wf_div, nonneg_not_nan.
  - unfold cash_after, depot_after, executed.
    destruct (minimum_cases (F32.mul m (F32.div c m)) c
                (mul_not_nan m _ Pf (nonneg_not_nan _ No))) as [[Hlt ->]|[Hlt ->]];
      rewrite Hlt; split; intros H; try discriminate H.
    + auto.
    + unfold F32.sub. rewrite SFsub_diag by assumption. auto.
Qed.

Lemma all_in_trade_witness :
  let m := F32.of_scaled 133 (-7) in
  let c := F32.of_Z 20 in
  exists a' c' d',
    Market_trade [m] 0 (mkAgent AllInAgent tt [c] [F32.zero]) = Some a' /\
    nth_error (cash a') 0 = Some c' /\ nth_error (depot a') 0 = Some d' /\
    F32.ge0 c' = true /\
    (F32.ltb (F32.mul m (F32.div c m)) c = false ->
       c' = F32.zero /\ d' = F32.add F32.zero (F32.div c m)) /\
    (F32.ltb (F32.mul m (F32.div c m)) c = true ->
       c' = F32.sub c (F32.mul m (F32.div c m)) /\
       d' = F32.add F32.zero (F32.div (F32.mul m (F32.div c m)) m)).
Proof.
  intros m c.
  apply (all_in_trade [m] 0 [c] [F32.zero] 0%nat m c F32.zero); reflexivity.
Defined.

(** C9 fails as stated.  An [AllInAgent] holding 20.0 at the price
    1.0390625 orders [fl(20 / 1.0390625)] units, worth 19.999998 in
    float32: after the trade its cash is [2^-19], not 0. *)
Lemma all_in_trade_counterexample :
  let m := F32.of_scaled 133 (-7) in
  let a := mkAgent AllInAgent tt [F32.of_Z 20] [F32.zero] in
  F32.gt0 m = true /\ F32.ge0 (F32.of_Z 20) = true /\
  option_map cash (Market_trade [m] 0 a) = Some [F32.of_scaled 1 (-19)] /\
  F32.eqb (F32.of_scaled 1 (-19)) F32.zero = false.
Proof. vm_compute. repeat split; reflexivity. Qed.

(** * The guard of the cash, and none for the depot *)

(** C10, as amended: whatever the sign of the order, a trade leaves a cash
    [>= 0] in every lane where the price is positive and finite, the cash
    finite and [>= 0] and the order not NaN: [np.minimum] never lets more
    than the cash be subtracted.  The depot has no such guard: it stays
    [>= 0] in a lane where the order is [>= 0], and an order of -1.0 units
    at the price 1.0 takes an empty depot to -1.0. *)
Theorem trade_keeps_cash_nonneg :
  (forall (a : Agent) (mv : lanes) (t : Z) (o : lanes) (s : attrs (cls a))
          (i : nat) (m oi c d : spec_float),
     order (cls a) (self a) (cash a) (depot a) mv t = Some (o, s) ->
     length mv = length (cash a) -> length o = length (cash a) ->
     length (depot a) = length (cash a) ->
     nth_error mv i = Some m -> nth_error o i = Some oi ->
     nth_error (cash a) i = Some c -> nth_error (depot a) i = Some d ->
     F32.pos_wf m = true ->
     F32.wf oi = true -> SF.is_nan oi = false ->
     F32.wf c = true -> F32.ge0 c = true -> SF.is_finite c = true ->
     exists a' c' d',
       Market_trade mv t a = Some a' /\
       nth_error (cash a') i = Some c' /\ nth_error (depot a') i = Some d' /\
       F32.ge0 c' = true /\
       (F32.ge0 oi = true -> F32.ge0 d = true -> F32.ge0 d' = true)) /\
  (let a := mkAgent FixedOrderAgent [F32.of_Z (-1)] [F32.one] [F32.zero] in
   option_map (fun a' => (cash a', depot a')) (Market_trade [F32.one] 0 a)
   = Some ([F32.of_Z 2], [F32.of_Z (-1)]) /\
   F32.ge0 (F32.of_Z (-1)) = false).
Proof.
  split.
  - intros a mv t o s i m oi c d Ho _ _ _ Hm Hoi Hc Hd Pm Wo No Wc Nc Fc.
    rewrite ge0_nonneg in Nc.
    destruct (settle_lane mv o (mkAgent (cls a) s (cash a) (depot a)) i m oi c d
                Hm Hoi Hc Hd) as [Hc' Hd'].
    exists (settle mv o (mkAgent (cls a) s (cash a) (depot a))),
      (cash_after m oi c), (depot_after m oi c d).
    split; [apply Market_trade_settle; exact Ho|].
    split; [exact Hc'|]. split; [exact Hd'|]. split.
    + rewrite ge0_nonneg. apply cash_after_nonneg; assumption.
    + rewrite !ge0_nonneg. intros Noi Nd.
      destruct (pos_wf_split m Pm) as [Pf _].
      apply depot_after_nonneg; assumption.
  - vm_compute. split; reflexivity.
Qed.

Lemma trade_keeps_cash_nonneg_witness :
  let a := mkAgent FixedOrderAgent [F32.of_Z (-1)] [F32.one] [F32.zero] in
  exists a' c' d',
    Market_trade [F32.one] 0 a = Some a' /\
    nth_error (cash a') 0 = Some c' /\ nth_error (depot a') 0 = Some d' /\
    F32.ge0 c' = true /\
    (F32.ge0 (F32.of_Z (-1)) = true -> F32.ge0 F32.zero = true -> F32.ge0 d' = true).
Proof.
  intros a.
  apply (proj1 trade_keeps_cash_nonneg a [F32.one] 0 [F32.of_Z (-1)] [F32.of_Z (-1)]
           0%nat F32.one (F32.of_Z (-1)) F32.one F32.zero); reflexivity.
Defined.

(** C10 fails as stated.  A [LimitOrderAgent] holding the finite cash
    [2^127] at the finite price [2^-30] places the order NaN -- its
    quotient overflows to [+inf] and is multiplied by a zero mask -- and the
    trade leaves NaN in its cash, which is not [>= 0].  So does an
    [AllInAgent] whose cash is [+inf]. *)
Lemma trade_keeps_cash_nonneg_counterexample :
  (let a := mkAgent LimitOrderAgent None [F32.of_scaled 1 127] [F32.zero] in
   let m := F32.of_scaled 1 (-30) in
   F32.gt0 m = true /\ F32.ge0 (F32.of_scaled 1 127) = true /\
   option_map cash (Market_trade [m] 0 a) = Some [S754_nan]) /\
  (let a := mkAgent AllInAgent tt [S754_infinity false] [F32.zero] in
   F32.gt0 F32.one = true /\ F32.ge0 (S754_infinity false) = true /\
   option_map cash (Market_trade [F32.one] 0 a) = Some [S754_nan]) /\
  F32.ge0 S754_nan = false.
Proof. vm_compute. repeat split; reflexivity. Qed.

(** * Runs of the engine *)

Lemma forallb_map {A B : Type} (p : B -> bool) (f : A -> B) (l : list A) :
  (forall x, In x l -> p (f x) = true) -> forallb p (map f l) = true.
Proof.
  intros H. apply forallb_forall. intros y Hy.
  apply in_map_iff in Hy. destruct Hy as [x [<- Hx]]. apply H. exact Hx.
Qed.

Lemma forallb_In {A : Type} (p : A -> bool) (l : list A) (x : A) :
  forallb p l = true -> In x l -> p x = true.
Proof. intros H. apply forallb_forall. exact H. Qed.

Lemma forallb_lane {A : Type} (p : A -> bool) (l : list A) (i : nat) (x : A) :
  forallb p l = true -> nth_error l i = Some x -> p x = true.
Proof. intros H. apply forallb_nth_error. exact H. Qed.

Lemma forallb_ge0 (v : lanes) : forallb F32.ge0 v = forallb SF.nonneg v.
Proof.
  induction v as [|x v IH]; simpl; [reflexivity|]. rewrite ge0_nonneg, IH. reflexivity.
Qed.

Lemma provided_ready_0 a : is_provided a -> ready 0 a.
Proof.
  destruct a as [k s c d]. unfold is_provided, ready. simpl.
  intros [E|[E|E]]; subst k; simpl; intros c' d' mv; discriminate.
Qed.

Lemma never_raises_ready t a : never_raises a -> ready t a.
Proof. intros H c d mv. apply H. Qed.

Lemma inject_cash inj a :
  SF.nonneg inj = true -> agent_inv a ->
  forallb F32.wf (cash (inject inj a)) = true /\
  forallb SF.nonneg (cash (inject inj a)) = true.
Proof.
  intros Hi [Hw [Hn _]]. simpl. unfold Np.add_scalar. split; apply forallb_map; intros x Hx.
  - apply wf_add; [exact (forallb_In _ _ _ Hw Hx) | apply wf_of_f64].
  - apply SFadd_nonneg; [exact (forallb_In _ _ _ Hn Hx) | apply nonneg_of_f64; exact Hi].
Qed.

Lemma settle_agent_inv mv o a :
  forallb F32.pos_wf mv = true ->
  forallb F32.wf (cash a) = true -> forallb SF.nonneg (cash a) = true ->
  forallb SF.is_finite (cash a) = true ->
  forallb F32.wf o = true -> forallb SF.nonneg o = true ->
  forallb SF.nonneg (depot a) = true ->
  agent_inv (settle mv o a).
Proof.
  intros Pm Wc Nc Fc Wo No Nd. unfold agent_inv. repeat split.
  - apply forallb_nth_error. intros i x Hx.
    destruct (settle_cash_lane _ _ _ _ _ Hx) as (m & oi & c & Hm & Hoi & Hc & ->).
    destruct (pos_wf_split m (forallb_lane _ _ _ _ Pm Hm)) as [_ Wm].
    apply cash_after_wf; eauto using forallb_lane.
  - apply forallb_nth_error. intros i x Hx.
    destruct (settle_cash_lane _ _ _ _ _ Hx) as (m & oi & c & Hm & Hoi & Hc & ->).
    apply cash_after_nonneg; eauto using forallb_lane, nonneg_not_nan.
  - apply forallb_nth_error. intros i x Hx.
    destruct (settle_depot_lane _ _ _ _ _ Hx) as (m & oi & c & d & Hm & Hoi & Hc & Hd & ->).
    destruct (pos_wf_split m (forallb_lane _ _ _ _ Pm Hm)) as [Pf _].
    apply depot_after_nonneg; eauto using forallb_lane.
Qed.

Lemma div_lanes c mv :
  forallb F32.pos_wf mv = true -> forallb SF.nonneg c = true ->
  forallb F32.wf (Np.div c mv) = true /\ forallb SF.nonneg (Np.div c mv) = true.
Proof.
  intros Pm Nc. unfold Np.div. split; apply forallb_map2; intros x y Hx Hy.
  - apply wf_div.
  - apply SFdiv_nonneg; [exact (forallb_In _ _ _ Nc Hx)|].
    exact (proj1 (pos_wf_split y (forallb_In _ _ _ Pm Hy))).
Qed.

Lemma mask_lanes q (b : list bool) :
  forallb F32.wf q = true -> forallb SF.nonneg q = true -> forallb SF.is_finite q = true ->
  forallb F32.wf (Np.mul_mask q b) = true /\ forallb SF.nonneg (Np.mul_mask q b) = true.
Proof.
  intros Wq Nq Fq. unfold Np.mul_mask. split; apply forallb_map2; intros x y Hx _.
  - apply wf_mul; [exact (forallb_In _ _ _ Wq Hx) | apply wf_of_bool].
  - apply SFmul_nonneg.
    + exact (forallb_In _ _ _ Nq Hx).
    + destruct y; reflexivity.
    + exact (forallb_In _ _ _ Fq Hx).
    + destruct y; reflexivity.
Qed.

(** One agent over one tick: injected, then trading. *)
Lemma tick_agent_ok inj mv t a :
  is_provided a -> ready t a -> agent_inv a ->
  SF.nonneg inj = true -> forallb F32.pos_wf mv = true ->
  in_range inj mv a = true ->
  exists a',
    Market_trade mv t (inject inj a) = Some a' /\
    is_provided a' /\ never_raises a' /\ agent_inv a'.
Proof.
  intros Hp Hr Ha Hi Pm Hrange.
  destruct (inject_cash inj a Hi Ha) as [Wc Nc].
  destruct Ha as [_ [_ Nd]].
  unfold in_range in Hrange. apply andb_prop in Hrange. destruct Hrange as [Fc Fq].
  destruct (div_lanes _ mv Pm Nc) as [Wq Nq].
  destruct a as [k s c d]. unfold is_provided in Hp. simpl in *.
  destruct Hp as [E|[E|E]]; subst k.
  - eexists. split; [reflexivity|]. split; [left; reflexivity|]. split.
    + intros c' d' mv' t'. discriminate.
    + apply settle_agent_inv; try assumption; unfold Np.zeros_like;
        apply forallb_map; reflexivity.
  - eexists. split; [reflexivity|]. split; [right; left; reflexivity|]. split.
    + intros c' d' mv' t'. discriminate.
    + apply settle_agent_inv; assumption.
  - unfold Market_trade, inject. simpl.
    specialize (Hr (Np.add_scalar c inj) d mv). simpl in Hr.
    unfold LimitOrderAgent_order in *.
    destruct (if t mod limit_wait_ticks =? 0
              then Some (Np.mul_scalar mv limit_ratio_value) else s) as [l|];
      [|congruence].
    destruct (mask_lanes _ (Np.le mv l) Wq Nq Fq) as [Wo No].
    eexists. split; [reflexivity|]. split; [right; right; reflexivity|]. split.
    + intros c' d' mv' t'. simpl. unfold LimitOrderAgent_order.
      destruct (t' mod limit_wait_ticks =? 0); discriminate.
    + apply settle_agent_inv; assumption.
Qed.

Lemma tick_agents_ok inj mv t l :
  Forall (fun a => is_provided a /\ ready t a /\ agent_inv a) l ->
  SF.nonneg inj = true -> forallb F32.pos_wf mv = true ->
  forallb (in_range inj mv) l = true ->
  exists l',
    tick_agents inj mv t l = Some l' /\
    Forall (fun a => is_provided a /\ never_raises a /\ agent_inv a) l'.
Proof.
  intros Hl Hi Pm. induction Hl as [|a l [Hp [Hr Ha]] _ IH]; intros Hrange.
  - exists []. split; [reflexivity | constructor].
  - simpl in Hrange. apply andb_prop in Hrange. destruct Hrange as [Ra Rl].
    destruct (tick_agent_ok inj mv t a Hp Hr Ha Hi Pm Ra) as [a' [Ea Ha']].
    destruct (IH Rl) as [l' [El Hl']].
    exists (a' :: l'). simpl. rewrite Ea, El. split; [reflexivity|].
    constructor; assumption.
Qed.

Lemma zeros_inv n :
  forallb F32.wf (Np.zeros n) = true /\ forallb SF.nonneg (Np.zeros n) = true.
Proof.
  unfold Np.zeros. split; apply forallb_forall; intros x Hx;
    apply repeat_spec in Hx; subst x; reflexivity.
Qed.

Lemma ones_positive n : positive_lanes n (Np.ones n).
Proof.
  unfold positive_lanes, Np.ones. split; [apply repeat_length|].
  apply forallb_forall. intros x Hx. apply repeat_spec in Hx. subst x. reflexivity.
Qed.

Lemma run_ok (ags : list Agent) (sched : Z -> spec_float) (sim : lanes -> Z -> lanes)
    (n k : nat) :
  Forall is_provided ags ->
  (forall t, SF.nonneg (sched t) = true) ->
  keeps_positive sim n ->
  no_overflow_run k (Market_init ags sched sim n) = true ->
  exists m,
    run k (Market_init ags sched sim n) = Some m /\
    tick_count m = Z.of_nat k /\ cash_injection m = sched /\ market_sim m = sim /\
    positive_lanes n (market_value m) /\
    Forall (fun a => is_provided a /\ ready (tick_count m) a /\ agent_inv a) (agents m).
Proof.
  intros Hp Hs Hk. induction k as [|k IH]; intros Hrun.
  - exists (Market_init ags sched sim n). simpl.
    repeat split; try reflexivity; try apply ones_positive.
    clear Hrun. induction Hp as [|a l Ha _ IHl]; simpl; [constructor|].
    constructor; [|exact IHl].
    destruct (zeros_inv n) as [Zw Zn].
    split; [exact Ha|]. split; [|repeat split; assumption].
    apply provided_ready_0. exact Ha.
  - simpl in Hrun. apply andb_prop in Hrun. destruct Hrun as [Hrun Hno].
    destruct (IH Hrun) as (m & Em & Ht & Hc & Hm & [Hlen Hpos] & Hags).
    rewrite Em in Hno. simpl. rewrite Em.
    unfold no_overflow in Hno.
    assert (Hi : SF.nonneg (cash_injection m (tick_count m)) = true)
      by (rewrite Hc; apply Hs).
    destruct (tick_agents_ok _ _ _ _ Hags Hi Hpos Hno) as (l' & El & Hl').
    unfold Market_tick. rewrite El. eexists. split; [reflexivity|]. simpl.
    repeat split.
    + rewrite Ht. lia.
    + exact Hc.
    + exact Hm.
    + rewrite Hm. apply Hk. split; assumption.
    + rewrite Hm. apply Hk. split; assumption.
    + eapply Forall_impl; [|exact Hl']. simpl.
      intros a [Hpa [Hna Hia]]. split; [exact Hpa|]. split; [|exact Hia].
      apply never_raises_ready. exact Hna.
Qed.

(** C2, as amended: run from its initial state, an engine built from
    [KeepCashAgent]s, [AllInAgent]s and [LimitOrderAgent]s, with injections
    [>= 0] and a price model that keeps every lane positive and finite,
    never raises and leaves, after every tick, a cash and a depot [>= 0] in
    every lane of every agent -- as long as no lane has overflowed: at each
    of the ticks run, the cash after the injection and its quotient by the
    price were finite. *)
Theorem run_keeps_nonneg (ags : list Agent) (sched : Z -> spec_float)
    (sim : lanes -> Z -> lanes) (n k : nat) :
  Forall is_provided ags ->
  (forall t, SF.nonneg (sched t) = true) ->
  keeps_positive sim n ->
  no_overflow_run k (Market_init ags sched sim n) = true ->
  exists m,
    run k (Market_init ags sched sim n) = Some m /\
    Forall (fun a => forallb F32.ge0 (cash a) = true /\ forallb F32.ge0 (depot a) = true)
      (agents m).
Proof.
  intros Hp Hs Hk Hrun.
  destruct (run_ok ags sched sim n k Hp Hs Hk Hrun) as (m & Em & _ & _ & _ & _ & Hags).
  exists m. split; [exact Em|].
  eapply Forall_impl; [|exact Hags]. simpl.
  intros a [_ [_ [_ [Hc Hd]]]]. rewrite !forallb_ge0. auto.
Qed.

Lemma run_keeps_nonneg_witness :
  exists m,
    run 25 calm_market = Some m /\
    Forall (fun a => forallb F32.ge0 (cash a) = true /\ forallb F32.ge0 (depot a) = true)
      (agents m).
Proof.
  apply (run_keeps_nonneg [new_KeepCashAgent; new_AllInAgent; new_LimitOrderAgent]
           (fun t => if t mod 20 =? 0 then F64.of_Z 20 else F64.zero)
           (fun market_value _ => market_value) 1 25).
  - apply Forall_cons; [left; reflexivity|].
    apply Forall_cons; [right; left; reflexivity|].
    apply Forall_cons; [right; right; reflexivity|].
    apply Forall_nil.
  - intros t. destruct (t mod 20 =? 0); reflexivity.
  - intros v t H. exact H.
  - vm_compute. reflexivity.
Defined.

(** C2 fails as stated.  A [LimitOrderAgent] in one lane is paid [2^127],
    a finite amount, at each tick, and the price goes from 1.0 to 0.5.  It
    does not buy at the first tick; at the second its cash overflows to
    [+inf], it orders [+inf] units and [inf - inf] leaves NaN in its cash,
    which is not [>= 0]. *)
Lemma run_keeps_nonneg_counterexample :
  SF.nonneg (F64.of_scaled 1 127) = true /\
  SF.is_finite (F64.of_scaled 1 127) = true /\
  option_map market_value (run 1 overflowing_market) = Some [F32.of_scaled 1 (-1)] /\
  F32.gt0 F32.one = true /\ F32.gt0 (F32.of_scaled 1 (-1)) = true /\
  option_map (fun m => map (fun a => (cash a, depot a)) (agents m)) (run 1 overflowing_market)
  = Some [([F32.of_scaled 1 127], [F32.zero])] /\
  option_map (fun m => map (fun a => (cash a, depot a)) (agents m)) (run 2 overflowing_market)
  = Some [([S754_nan], [S754_infinity false])] /\
  forallb F32.ge0 [S754_nan] = false /\
  no_overflow_run 2 overflowing_market = false.
Proof. vm_compute. repeat split; reflexivity. Qed.

(** * Further properties of the engine *)

Lemma Market_trade_cls mv t a a' : Market_trade mv t a = Some a' -> cls a' = cls a.
Proof.
  unfold Market_trade.
  destruct (order (cls a) (self a) (cash a) (depot a) mv t) as [[o s]|]; [|discriminate].
  intros H. inversion H. reflexivity.
Qed.

Lemma tick_agents_cls inj mv t l l' :
  tick_agents inj mv t l = Some l' -> map cls l' = map cls l.
Proof.
  revert l'. induction l as [|a l IH]; intros l' H; simpl in H.
  - inversion H. reflexivity.
  - destruct (Market_trade mv t (inject inj a)) as [a'|] eqn:Ea; [|discriminate].
    destruct (tick_agents inj mv t l) as [l''|]; [|discriminate].
    inversion H. simpl. rewrite (IH l'' eq_refl).
    apply Market_trade_cls in Ea. rewrite Ea. reflexivity.
Qed.

(** X1: whatever the agents, [k] calls of [tick()] that return have added
    exactly [k] to [tick_count] and have kept the agents: as many, in the
    same order and of the same classes, with the same schedule and the same
    price model. *)
Theorem run_keeps_agents (k : nat) (m m' : Market) :
  run k m = Some m' ->
  tick_count m' = tick_count m + Z.of_nat k /\
  map cls (agents m') = map cls (agents m) /\
  cash_injection m' = cash_injection m /\ market_sim m' = market_sim m.
Proof.
  revert m'. induction k as [|k IH]; intros m' H.
  - inversion H. simpl. repeat split. lia.
  - simpl in H. destruct (run k m) as [m1|]; [|discriminate].
    destruct (IH m1 eq_refl) as (Ht & Hc & Hi & Hs).
    unfold Market_tick in H.
    destruct (tick_agents _ _ _ (agents m1)) as [ags|] eqn:E; [|discriminate].
    inversion H. simpl. apply tick_agents_cls in E.
    repeat split; try congruence. lia.
Qed.

Lemma run_keeps_agents_witness :
  exists m',
    run 3 calm_market = Some m' /\
    tick_count m' = tick_count calm_market + 3 /\
    map cls (agents m') = map cls (agents calm_market) /\
    cash_injection m' = cash_injection calm_market /\
    market_sim m' = market_sim calm_market.
Proof.
  assert (H : option_map tick_count (run 3 calm_market) = Some 3)
    by (vm_compute; reflexivity).
  remember (run 3 calm_market) as r eqn:E. symmetry in E.
  destruct r as [m'|]; [|discriminate H].
  exists m'. split; [reflexivity|].
  apply (run_keeps_agents 3 calm_market). exact E.
Defined.

Lemma provided_trade_ready t a :
  is_provided a -> ready t a ->
  forall inj mv, exists a',
    Market_trade mv t (inject inj a) = Some a' /\ is_provided a' /\ never_raises a'.
Proof.
  intros Hp Hr inj mv. destruct a as [k s c d]. unfold is_provided in Hp. simpl in Hp.
  destruct Hp as [E|[E|E]]; subst k.
  - eexists. split; [reflexivity|]. split; [left; reflexivity|].
    intros c' d' mv' t'. discriminate.
  - eexists. split; [reflexivity|]. split; [right; left; reflexivity|].
    intros c' d' mv' t'. discriminate.
  - unfold Market_trade, inject. simpl.
    specialize (Hr (Np.add_scalar c inj) d mv). simpl in Hr.
    unfold LimitOrderAgent_order in *.
    destruct (if t mod limit_wait_ticks =? 0
              then Some (Np.mul_scalar mv limit_ratio_value) else s) as [l|];
      [|congruence].
    eexists. split; [reflexivity|]. split; [right; right; reflexivity|].
    intros c' d' mv' t'. simpl. unfold LimitOrderAgent_order.
    destruct (t' mod limit_wait_ticks =? 0); discriminate.
Qed.

Lemma provided_tick_agents inj mv t l :
  Forall (fun a => is_provided a /\ ready t a) l ->
  exists l',
    tick_agents inj mv t l = Some l' /\
    Forall (fun a => is_provided a /\ never_raises a) l'.
Proof.
  induction 1 as [|a l [Hp Hr] _ [l' [El Hl']]].
  - exists []. split; [reflexivity | constructor].
  - destruct (provided_trade_ready t a Hp Hr inj mv) as [a' [Ea Ha']].
    exists (a' :: l'). simpl. rewrite Ea, El. split; [reflexivity|].
    constructor; assumption.
Qed.

(** X2: an engine built from the three strategies of the program never
    raises, whatever the schedule, the price model and the numbers they
    produce (infinities and NaN included): [tick()] can be called any number
    of times from the initial state. *)
Theorem run_never_raises (ags : list Agent) (sched : Z -> spec_float)
    (sim : lanes -> Z -> lanes) (n k : nat) :
  Forall is_provided ags ->
  exists m, run k (Market_init ags sched sim n) = Some m.
Proof.
  intros Hp.
  assert (H : exists m, run k (Market_init ags sched sim n) = Some m /\
                Forall (fun a => is_provided a /\ ready (tick_count m) a) (agents m)).
  { induction k as [|k [m [Em Hm]]].
    - exists (Market_init ags sched sim n). split; [reflexivity|]. simpl.
      induction Hp as [|a l Ha _ IHl]; simpl; [constructor|].
      constructor; [|exact IHl]. split; [exact Ha|]. apply provided_ready_0. exact Ha.
    - destruct (provided_tick_agents (cash_injection m (tick_count m)) (market_value m)
                  (tick_count m) (agents m) Hm) as [l' [El Hl']].
      simpl. rewrite Em. unfold Market_tick. rewrite El.
      eexists. split; [reflexivity|]. simpl.
      eapply Forall_impl; [|exact Hl']. simpl.
      intros a [Ha Hn]. split; [exact Ha|]. apply never_raises_ready. exact Hn. }
  destruct H as [m [Em _]]. exists m. exact Em.
Qed.

Lemma run_never_raises_witness :
  exists m, run 30 overflowing_market = Some m.
Proof.
  apply (run_never_raises [new_LimitOrderAgent] (fun _ => F64.of_scaled 1 127)
           (fun _ _ => [F32.of_scaled 1 (-1)]) 1 30).
  apply Forall_cons; [right; right; reflexivity | apply Forall_nil].
Defined.

Lemma tick_agents_raises inj mv t l a :
  In a l -> Market_trade mv t (inject inj a) = None -> tick_agents inj mv t l = None.
Proof.
  induction l as [|b l IH]; intros Hin Hn; [destruct Hin|].
  simpl. destruct Hin as [->|Hin].
  - rewrite Hn. reflexivity.
  - destruct (Market_trade mv t (inject inj b)); [|reflexivity].
    rewrite (IH Hin Hn). reflexivity.
Qed.

(** X3: a [LimitOrderAgent] that has no [limit] yet raises exactly when it
    is asked at a tick that is not a multiple of 10, and one that has a
    limit never raises; so [tick()] raises on a market that holds a fresh
    [LimitOrderAgent] while its [tick_count] is not a multiple of 10. *)
Theorem limit_order_raises_iff :
  (forall c d mv t,
     order LimitOrderAgent None c d mv t = None <-> t mod 10 <> 0) /\
  (forall l c d mv t, order LimitOrderAgent (Some l) c d mv t <> None) /\
  (forall m c d,
     In (mkAgent LimitOrderAgent None c d) (agents m) ->
     tick_count m mod 10 <> 0 -> Market_tick m = None).
Proof.
  assert (H1 : forall c d mv t,
            order LimitOrderAgent None c d mv t = None <-> t mod 10 <> 0).
  { intros c d mv t. simpl. unfold LimitOrderAgent_order, limit_wait_ticks.
    destruct (t mod 10 =? 0) eqn:E.
    - apply Z.eqb_eq in E. split; [discriminate | congruence].
    - apply Z.eqb_neq in E. split; auto. }
  split; [exact H1|]. split.
  - intros l c d mv t. simpl. unfold LimitOrderAgent_order.
    destruct (t mod limit_wait_ticks =? 0); discriminate.
  - intros m c d Hin Ht. unfold Market_tick.
    rewrite (tick_agents_raises _ _ _ _ _ Hin); [reflexivity|].
    pose proof (proj2 (H1 (Np.add_scalar c (cash_injection m (tick_count m))) d
                         (market_value m) (tick_count m)) Ht) as Hn.
    unfold Market_trade, inject. cbn [cls self cash depot].
    rewrite Hn. reflexivity.
Qed.

Lemma limit_order_raises_iff_witness :
  Market_tick (mkMarket [mkAgent LimitOrderAgent None [F32.zero] [F32.zero]]
                 (fun _ => F64.zero) (fun mv _ => mv) 3 [F32.one]) = None.
Proof.
  apply (proj2 (proj2 limit_order_raises_iff)
           (mkMarket [mkAgent LimitOrderAgent None [F32.zero] [F32.zero]]
              (fun _ => F64.zero) (fun mv _ => mv) 3 [F32.one])
           [F32.zero] [F32.zero]).
  - left. reflexivity.
  - discriminate.
Defined.

(** * Exact operations *)

Section Exact.
Variables prec emax : Z.
Hypothesis Hprec : 0 < prec.

Lemma shr_1_double a :
  shr_1 {| shr_m := 2 * a; shr_r := false; shr_s := false |}
  = {| shr_m := a; shr_r := false; shr_s := false |}.
Proof. destruct a as [|p|p]; reflexivity. Qed.

Lemma iter_shr_1_exact p : forall a,
  iter_pos shr_1 p {| shr_m := a * 2 ^ Zpos p; shr_r := false; shr_s := false |}
  = {| shr_m := a; shr_r := false; shr_s := false |}.
Proof.
  induction p as [p IH|p IH|]; intros a; cbn [iter_pos].
  - replace (a * 2 ^ Z.pos p~1) with (2 * ((a * 2 ^ Z.pos p) * 2 ^ Z.pos p)).
    + rewrite shr_1_double, IH. apply IH.
    + assert (E : 2 ^ Z.pos p~1 = 2 * (2 ^ Z.pos p * 2 ^ Z.pos p)).
      { rewrite <- Z.pow_add_r, <- Z.pow_succ_r by lia. f_equal. lia. }
      rewrite E. ring.
  - replace (a * 2 ^ Z.pos p~0) with ((a * 2 ^ Z.pos p) * 2 ^ Z.pos p).
    + rewrite IH. apply IH.
    + assert (E : 2 ^ Z.pos p~0 = 2 ^ Z.pos p * 2 ^ Z.pos p).
      { rewrite <- Z.pow_add_r by lia. f_equal. lia. }
      rewrite E. ring.
  - rewrite Z.pow_1_r. replace (a * 2) with (2 * a) by ring. apply shr_1_double.
Qed.

(** A canonical mantissa that was shifted left by [k] bits is rounded back
    to itself. *)
Lemma binary_round_aux_exact s m e k :
  0 <= k -> bounded prec emax m e = true ->
  binary_round_aux prec emax s (Zpos m * 2 ^ k) (e - k) loc_Exact = S754_finite s m e.
Proof.
  intros Hk Hb.
  destruct (bounded_canonical prec emax m e Hb) as [Hc He].
  assert (Hd : Zdigits2 (Zpos m * 2 ^ k) + (e - k) = Zdigits2 (Zpos m) + e).
  { rewrite (Zdigits2_log2 prec emax (Zpos m * 2 ^ k))
      by (apply Z.mul_pos_pos; [lia | apply Z.pow_pos_nonneg; lia]).
    rewrite (Zdigits2_log2 prec emax (Zpos m)) by lia.
    rewrite Z.log2_mul_pow2 by lia. lia. }
  unfold binary_round_aux.
  assert (E1 : shr_fexp prec emax (Zpos m * 2 ^ k) (e - k) loc_Exact
               = ({| shr_m := Zpos m; shr_r := false; shr_s := false |}, e)).
  { unfold shr_fexp. rewrite Hd, Hc.
    replace (e - (e - k)) with k by lia. unfold shr, shr_record_of_loc.
    destruct k as [|p|p]; try lia.
    - rewrite Z.pow_0_r, Z.mul_1_r, Z.sub_0_r. reflexivity.
    - rewrite iter_shr_1_exact. f_equal. lia. }
  rewrite E1. cbn [shr_m loc_of_shr_record round_nearest_even].
  assert (E2 : shr_fexp prec emax (Zpos m) e loc_Exact
               = ({| shr_m := Zpos m; shr_r := false; shr_s := false |}, e)).
  { unfold shr_fexp. rewrite Hc, Z.sub_diag. reflexivity. }
  rewrite E2. cbn [shr_m].
  apply Z.leb_le in He. rewrite He. reflexivity.
Qed.

End Exact.

Lemma one_eq : F32.one = S754_finite false 8388608 (-23).
Proof. reflexivity. Qed.

Lemma mul_one_r x : F32.wf x = true -> F32.mul x F32.one = x.
Proof.
  intros Hx. rewrite one_eq.
  destruct x as [s|s| |s m e]; unfold F32.mul, SFmul;
    rewrite ?Bool.xorb_false_r; try reflexivity.
  replace (Z.pos (m * 8388608)) with (Zpos m * 2 ^ 23) by (rewrite Pos2Z.inj_mul; reflexivity).
  replace (e + -23) with (e - 23) by lia.
  apply binary_round_aux_exact; [lia|exact Hx].
Qed.



(** * Orders and trades in one lane *)

(** X4: lane by lane, a [LimitOrderAgent] orders exactly what an
    [AllInAgent] would, [cash / market_value], where the price is at most
    the limit, and orders a zero where the price is above the limit (or
    either is NaN) and the quotient has not overflowed. *)
Theorem limit_order_lane (limit : option lanes) (c d mv : lanes) (t : Z)
    (o L : lanes) (i : nat) (m ci li : spec_float) :
  LimitOrderAgent_order limit c d mv t = Some (o, Some L) ->
  nth_error mv i = Some m -> nth_error c i = Some ci -> nth_error L i = Some li ->
  (F32.leb m li = true -> nth_error o i = Some (F32.div ci m)) /\
  (F32.leb m li = false -> SF.is_finite (F32.div ci m) = true ->
   exists s, nth_error o i = Some (S754_zero s)).
Proof.
  unfold LimitOrderAgent_order. intros H Hm Hc Hl.
  destruct (if t mod limit_wait_ticks =? 0
            then Some (Np.mul_scalar mv limit_ratio_value) else limit) as [l|];
    [|discriminate].
  inversion H. subst o L. clear H.
  assert (Ho : nth_error (Np.mul_mask (Np.div c mv) (Np.le mv l)) i
               = Some (F32.mul (F32.div ci m) (F32.of_bool (F32.leb m li)))).
  { unfold Np.mul_mask, Np.div, Np.le. rewrite !nth_error_map2, Hc, Hm, Hl. reflexivity. }
  rewrite Ho. split.
  - intros Hle. rewrite Hle. simpl F32.of_bool. rewrite mul_one_r by apply wf_div.
    reflexivity.
  - intros Hle Hf. rewrite Hle. simpl F32.of_bool.
    destruct (F32.div ci m) as [s|s| |s mq eq]; try discriminate Hf.
    + exists (xorb s false). reflexivity.
    + exists (xorb s false). reflexivity.
Qed.

Lemma limit_order_lane_witness :
  (F32.leb F32.one (F32.of_Z 2) = true ->
   nth_error [F32.div (F32.of_Z 20) F32.one] 0 = Some (F32.div (F32.of_Z 20) F32.one)) /\
  (F32.leb F32.one (F32.of_Z 2) = false ->
   SF.is_finite (F32.div (F32.of_Z 20) F32.one) = true ->
   exists s, nth_error [F32.div (F32.of_Z 20) F32.one] 0 = Some (S754_zero s)).
Proof.
  apply (limit_order_lane (Some [F32.of_Z 2]) [F32.of_Z 20] [F32.zero] [F32.one] 3
           [F32.div (F32.of_Z 20) F32.one] [F32.of_Z 2] 0%nat
           F32.one (F32.of_Z 20) (F32.of_Z 2)); reflexivity.
Defined.

(** X5: a negative cash is wiped by a trade.  A [KeepCashAgent] orders
    nothing, but [np.minimum(0, cash)] is the cash itself when the cash is
    negative: in such a lane the trade brings the cash to +0.0 and adds the
    negative quantity [cash / market_value] to the depot. *)
Theorem keep_cash_negative_cash (mv : lanes) (t : Z) (c0 d0 : lanes) (i : nat)
    (m c d : spec_float) :
  nth_error mv i = Some m -> nth_error c0 i = Some c -> nth_error d0 i = Some d ->
  SF.pos_finite m = true -> SF.is_finite c = true -> F32.ltb c F32.zero = true ->
  exists a',
    Market_trade mv t (mkAgent KeepCashAgent tt c0 d0) = Some a' /\
    nth_error (cash a') i = Some F32.zero /\
    nth_error (depot a') i = Some (F32.add d (F32.div c m)).
Proof.
  intros Hm Hc Hd Pm Fc Nc.
  assert (Ho : nth_error (Np.zeros_like c0) i = Some F32.zero).
  { unfold Np.zeros_like. rewrite nth_error_map, Hc. reflexivity. }
  destruct (settle_lane mv (Np.zeros_like c0) (mkAgent KeepCashAgent tt c0 d0) i m
              F32.zero c d Hm Ho Hc Hd) as [Hc' Hd'].
  exists (settle mv (Np.zeros_like c0) (mkAgent KeepCashAgent tt c0 d0)).
  split; [reflexivity|].
  assert (Ex : executed m F32.zero c = c).
  { unfold executed, F32.minimum.
    destruct m as [sm|sm| |[] mm em]; try discriminate Pm.
    destruct c as [sc|sc| |[] mc ec]; try discriminate Fc; try discriminate Nc;
      try (destruct sc; discriminate Nc).
    reflexivity. }
  split.
  - rewrite Hc'. unfold cash_after. rewrite Ex.
    unfold F32.sub. rewrite SFsub_diag by exact Fc. reflexivity.
  - rewrite Hd'. unfold depot_after. rewrite Ex. reflexivity.
Qed.

Lemma keep_cash_negative_cash_witness :
  exists a',
    Market_trade [F32.of_Z 2] 0 (mkAgent KeepCashAgent tt [F32.of_Z (-10)] [F32.of_Z 3])
    = Some a' /\
    nth_error (cash a') 0 = Some F32.zero /\
    nth_error (depot a') 0 = Some (F32.add (F32.of_Z 3) (F32.div (F32.of_Z (-10)) (F32.of_Z 2))).
Proof.
  apply (keep_cash_negative_cash [F32.of_Z 2] 0 [F32.of_Z (-10)] [F32.of_Z 3] 0%nat
           (F32.of_Z 2) (F32.of_Z (-10)) (F32.of_Z 3)); reflexivity.
Defined.

(** X6: with no cash nothing is bought.  In a lane where the cash is +0.0
    and the order is [>= 0] (infinite or not), whatever the agent, the
    trade leaves the cash at +0.0 and the depot as it was (a depot of -0.0
    apart, which becomes +0.0). *)
Theorem no_cash_no_trade (a : Agent) (mv : lanes) (t : Z) (o : lanes)
    (s : attrs (cls a)) (i : nat) (m oi d : spec_float) :
  order (cls a) (self a) (cash a) (depot a) mv t = Some (o, s) ->
  nth_error mv i = Some m -> nth_error o i = Some oi ->
  nth_error (cash a) i = Some F32.zero -> nth_error (depot a) i = Some d ->
  SF.pos_finite m = true -> F32.ge0 oi = true -> d <> S754_zero true ->
  exists a',
    Market_trade mv t a = Some a' /\
    nth_error (cash a') i = Some F32.zero /\
    nth_error (depot a') i = Some d.
Proof.
  intros Ho Hm Hoi Hc Hd Pm No Dz. rewrite ge0_nonneg in No.
  destruct (settle_lane mv o (mkAgent (cls a) s (cash a) (depot a)) i m oi F32.zero d
              Hm Hoi Hc Hd) as [Hc' Hd'].
  eexists. split; [apply Market_trade_settle; exact Ho|].
  assert (Ex : executed m oi F32.zero = F32.zero).
  { unfold executed, F32.minimum.
    pose proof (SFmul_pos_nonneg F32.prec F32.emax m oi Pm No) as Hn.
    fold F32.mul in Hn.
    destruct (F32.mul m oi) as [sx|[]| |[] mx ex]; try discriminate Hn; reflexivity. }
  split.
  - rewrite Hc'. unfold cash_after. rewrite Ex. reflexivity.
  - rewrite Hd'. unfold depot_after. rewrite Ex. f_equal.
    destruct m as [sm|sm| |[] mm em]; try discriminate Pm.
    destruct d as [[]|sd| |sd md ed]; try reflexivity. congruence.
Qed.

Lemma no_cash_no_trade_witness :
  exists a',
    Market_trade [F32.of_Z 2] 0 (mkAgent FixedOrderAgent [F32.of_Z 5] [F32.zero] [F32.of_Z 3])
    = Some a' /\
    nth_error (cash a') 0 = Some F32.zero /\
    nth_error (depot a') 0 = Some (F32.of_Z 3).
Proof.
  apply (no_cash_no_trade (mkAgent FixedOrderAgent [F32.of_Z 5] [F32.zero] [F32.of_Z 3])
           [F32.of_Z 2] 0 [F32.of_Z 5] [F32.of_Z 5] 0%nat (F32.of_Z 2) (F32.of_Z 5)
           (F32.of_Z 3)); try reflexivity.
  discriminate.
Defined.

Lemma SFmul_nonneg_pos x y :
  SF.nonneg x = true -> SF.pos_finite y = true -> SF.nonneg (F32.mul x y) = true.
Proof.
  destruct x as [sx|[]| |[] mx ex], y as [sy|[]| |[] my ey]; simpl; try congruence.
  intros _ _. apply has_sign_nonneg. apply binary_round_aux_sign. lia.
Qed.

(** X7: the mark-to-market value [cash + depot * market_value] is [>= 0]
    (and so not NaN) in every lane where the cash and the depot are [>= 0]
    and the price is positive and finite. *)
Theorem total_value_nonneg (a : Agent) (mv : lanes) (i : nat) (m c d : spec_float) :
  nth_error mv i = Some m ->
  nth_error (cash a) i = Some c -> nth_error (depot a) i = Some d ->
  SF.pos_finite m = true -> F32.ge0 c = true -> F32.ge0 d = true ->
  exists v,
    nth_error (get_total_value a mv) i = Some v /\
    v = F32.add c (F32.mul d m) /\ F32.ge0 v = true.
Proof.
  intros Hm Hc Hd Pm Nc Nd. rewrite ge0_nonneg in *.
  exists (F32.add c (F32.mul d m)). split; [|split; [reflexivity|]].
  - unfold get_total_value, Np.add, Np.mul. rewrite !nth_error_map2, Hc, Hd, Hm.
    reflexivity.
  - rewrite ge0_nonneg. apply SFadd_nonneg; [exact Nc|].
    apply SFmul_nonneg_pos; assumption.
Qed.

Lemma total_value_nonneg_witness :
  exists v,
    nth_error (get_total_value (mkAgent KeepCashAgent tt [F32.of_Z 5] [F32.of_Z 3])
                 [F32.of_Z 2]) 0 = Some v /\
    v = F32.add (F32.of_Z 5) (F32.mul (F32.of_Z 3) (F32.of_Z 2)) /\ F32.ge0 v = true.
Proof.
  apply (total_value_nonneg (mkAgent KeepCashAgent tt [F32.of_Z 5] [F32.of_Z 3])
           [F32.of_Z 2] 0%nat (F32.of_Z 2) (F32.of_Z 5) (F32.of_Z 3)); reflexivity.
Defined.

(** * The pairwise tally of the driver *)

Lemma SFcompare_antisym x y :
  SFcompare y x = option_map CompOpp (SFcompare x y).
Proof.
  destruct x as [sx|[]| |[] mx ex], y as [sy|[]| |[] my ey]; try reflexivity; simpl;
    rewrite (Z.compare_antisym ex ey);
    destruct (ex ?= ey); simpl; try reflexivity;
    change (Pos.compare_cont Eq mx my) with (Pos.compare mx my);
    change (Pos.compare_cont Eq my mx) with (Pos.compare my mx);
    rewrite (Pos.compare_antisym mx my);
    destruct (mx ?= my)%positive; reflexivity.
Qed.

Lemma gtb_ltb x y : gtb x y = F32.ltb y x.
Proof.
  unfold gtb, F32.ltb, SFltb. rewrite (SFcompare_antisym x y).
  destruct (SFcompare x y) as [[]|]; reflexivity.
Qed.

Lemma gtb_ltb_exclusive x y : gtb x y && F32.ltb x y = false.
Proof.
  unfold gtb, F32.ltb, SFltb. destruct (SFcompare x y) as [[]|]; reflexivity.
Qed.

Lemma count_tally u v :
  0 <= count (map2 gtb u v) /\ 0 <= count (map2 F32.ltb u v) /\
  count (map2 gtb u v) + count (map2 F32.ltb u v) <= Z.of_nat (length (map2 gtb u v)).
Proof.
  revert v. induction u as [|x u IH]; intros [|y v]; simpl; try lia.
  specialize (IH v). pose proof (gtb_ltb_exclusive x y) as He.
  unfold count in *. simpl.
  destruct (gtb x y), (F32.ltb x y); try discriminate He; lia.
Qed.

(** X8: in the tally of two agents no lane is counted for both: the wins
    of the first and the wins of the second are counts of disjoint lanes,
    so their sum is at most the number of lanes compared (ties and NaN
    lanes are counted for neither). *)
Theorem tally_exclusive (a b : Agent) (mv : lanes) :
  0 <= awins a b mv /\ 0 <= bwins a b mv /\
  awins a b mv + bwins a b mv
  <= Z.of_nat (length (map2 gtb (get_total_value a mv) (get_total_value b mv))).
Proof. unfold awins, bwins. apply count_tally. Qed.

(** X9: the tally is symmetric: the lanes counted for the second agent,
    where [a < b], are those where [b > a], so [bwins] of a pair is [awins]
    of the pair swapped; and an agent never wins against itself. *)
Theorem tally_symmetric (a b : Agent) (mv : lanes) :
  bwins a b mv = awins b a mv /\ awins a a mv = 0.
Proof.
  unfold awins, bwins. split.
  - f_equal. generalize (get_total_value a mv) (get_total_value b mv).
    intros u. induction u as [|x u IH]; intros [|y v]; simpl; try reflexivity.
    rewrite gtb_ltb, IH. reflexivity.
  - generalize (get_total_value a mv). intros u.
    induction u as [|x u IH]; simpl; [reflexivity|].
    unfold count in *. simpl. rewrite IH.
    rewrite gtb_ltb. unfold F32.ltb. rewrite SFltb_irrefl. reflexivity.
Qed.

(** * The period of the schedule *)

(** X10: every schedule that can be built is periodic: its period
    [payout_every_n_ticks] times the number of payouts is the 10000 ticks
    of a year, and the schedule returns at tick [t + payout_every_n_ticks]
    what it returns at tick [t]. *)
Theorem schedule_periodic (cash_per_year : spec_float) (payouts : Z)
    (s : SimpleCashInjection) (t : Z) :
  SimpleCashInjection_init_with cash_per_year payouts = Some s ->
  payout_every_n_ticks s * payouts = TICKS_PER_YEAR /\
  SimpleCashInjection_call s (t + payout_every_n_ticks s) = SimpleCashInjection_call s t.
Proof.
  unfold SimpleCashInjection_init_with.
  destruct (payouts =? 0) eqn:E0; [discriminate|]. apply Z.eqb_neq in E0.
  destruct (TICKS_PER_YEAR mod payouts =? 0) eqn:Em; [|discriminate].
  apply Z.eqb_eq in Em. simpl negb. cbv iota.
  intros H. inversion H. subst s. clear H. cbn [payout_every_n_ticks].
  split.
  - apply Z.div_exact in Em; [|exact E0]. rewrite Z.mul_comm. symmetry. exact Em.
  - unfold SimpleCashInjection_call. cbn [payout_every_n_ticks payout].
    replace (t + TICKS_PER_YEAR / payouts) with (t + 1 * (TICKS_PER_YEAR / payouts)) by lia.
    rewrite Z_mod_plus_full. reflexivity.
Qed.

Lemma schedule_periodic_witness :
  exists s,
    SimpleCashInjection_init = Some s /\
    payout_every_n_ticks s * 500 = TICKS_PER_YEAR /\
    SimpleCashInjection_call s (7 + payout_every_n_ticks s) = SimpleCashInjection_call s 7.
Proof.
  eexists. split; [reflexivity|].
  apply (schedule_periodic (F64.of_Z 10000) 500). reflexivity.
Defined.

(** * What the agents hold after a run *)

















(** * The shape of the arrays *)

Lemma settle_lengths n mv o a :
  length mv = n -> length o = n -> length (cash a) = n -> length (depot a) = n ->
  length (cash (settle mv o a)) = n /\ length (depot (settle mv o a)) = n.
Proof.
  intros Hm Ho Hc Hd. unfold settle. simpl.
  unfold Np.sub, Np.add, Np.div, Np.minimum, Np.mul.
  assert (H1 : length (map2 F32.mul mv o) = n)
    by (rewrite length_map2; congruence).
  assert (H2 : length (map2 F32.minimum (map2 F32.mul mv o) (cash a)) = n)
    by (rewrite length_map2; congruence).
  assert (H3 : length (map2 F32.div (map2 F32.minimum (map2 F32.mul mv o) (cash a)) mv) = n)
    by (rewrite length_map2; congruence).
  split; rewrite length_map2; congruence.
Qed.

Lemma mask_length n c mv l :
  length c = n -> length mv = n -> length l = n ->
  length (Np.mul_mask (Np.div c mv) (Np.le mv l)) = n.
Proof.
  intros Hc Hm Hl. unfold Np.mul_mask, Np.div, Np.le.
  assert (Hq : length (map2 F32.div c mv) = n) by (rewrite length_map2; congruence).
  assert (Hb : length (map2 F32.leb mv l) = n) by (rewrite length_map2; congruence).
  rewrite length_map2; congruence.
Qed.

Lemma div_length n c mv : length c = n -> length mv = n -> length (Np.div c mv) = n.
Proof. intros Hc Hm. unfold Np.div. rewrite length_map2; congruence. Qed.

Lemma mul_scalar_length mv x : length (Np.mul_scalar mv x) = length mv.
Proof. unfold Np.mul_scalar. apply length_map. Qed.

Lemma limit_order_shape n l c d mv t o s :
  length l = n -> length c = n -> length mv = n ->
  LimitOrderAgent_order (Some l) c d mv t = Some (o, s) -> length o = n.
Proof.
  intros Hl Hc Hm. unfold LimitOrderAgent_order.
  destruct (t mod limit_wait_ticks =? 0); intros H; injection H as <- _.
  - apply mask_length; try assumption. rewrite mul_scalar_length. exact Hm.
  - apply mask_length; assumption.
Qed.

(** One agent over one tick, as to the shapes. *)
Lemma tick_agent_shape n inj mv t a :
  is_provided a ->
  t = 0 \/ (never_raises a /\ orders_shaped n a) ->
  length mv = n -> length (cash a) = n -> length (depot a) = n ->
  exists a',
    Market_trade mv t (inject inj a) = Some a' /\
    is_provided a' /\ (never_raises a' /\ orders_shaped n a') /\
    length (cash a') = n /\ length (depot a') = n.
Proof.
  intros Hp Hr Hm Hc Hd.
  destruct a as [k s c d]. unfold is_provided in Hp. simpl in *.
  assert (Hc1 : length (Np.add_scalar c inj) = n)
    by (unfold Np.add_scalar; rewrite length_map; exact Hc).
  destruct Hp as [E|[E|E]]; subst k.
  - eexists. split; [reflexivity|]. split; [left; reflexivity|]. split; [split|].
    + intros c' d' mv' t'. discriminate.
    + intros c' d' mv' t' o' s' Hc' Hm' H. simpl in H. inversion H.
      unfold Np.zeros_like. rewrite length_map. exact Hc'.
    + apply settle_lengths; try assumption.
      unfold Np.zeros_like. rewrite length_map. exact Hc1.
  - eexists. split; [reflexivity|]. split; [right; left; reflexivity|]. split; [split|].
    + intros c' d' mv' t'. discriminate.
    + intros c' d' mv' t' o' s' Hc' Hm' H. simpl in H. inversion H.
      apply div_length; assumption.
    + apply settle_lengths; try assumption.
      apply div_length; [exact Hc1 | exact Hm].
  - unfold Market_trade, inject. simpl.
    destruct (t mod limit_wait_ticks =? 0) eqn:Et.
    + (* a checkpoint: the limit is set anew *)
      assert (Eo : LimitOrderAgent_order s (Np.add_scalar c inj) d mv t
                   = LimitOrderAgent_order (Some (Np.mul_scalar mv limit_ratio_value))
                       (Np.add_scalar c inj) d mv t).
      { unfold LimitOrderAgent_order. rewrite Et. reflexivity. }
      rewrite Eo.
      assert (Hnew : length (Np.mul_scalar mv limit_ratio_value) = n)
        by (rewrite mul_scalar_length; exact Hm).
      destruct (LimitOrderAgent_order (Some (Np.mul_scalar mv limit_ratio_value))
                  (Np.add_scalar c inj) d mv t) as [[o s']|] eqn:E1.
      * pose proof (limit_order_shape n _ _ _ _ _ _ _ Hnew Hc1 Hm E1) as Ho.
        apply LimitOrderAgent_order_limit in E1. rewrite Et in E1. subst s'.
        eexists. split; [reflexivity|]. split; [right; right; reflexivity|].
        split; [split|].
        -- intros c' d' mv' t'. simpl. unfold LimitOrderAgent_order.
           destruct (t' mod limit_wait_ticks =? 0); discriminate.
        -- intros c' d' mv' t' o' s' Hc' Hm' H. simpl in H.
           exact (limit_order_shape n _ _ _ _ _ _ _ Hnew Hc' Hm' H).
        -- apply settle_lengths; assumption.
      * exfalso. unfold LimitOrderAgent_order in E1.
        destruct (t mod limit_wait_ticks =? 0); discriminate E1.
    + (* between checkpoints: the limit is the one the agent had *)
      destruct Hr as [->|[Hnr Hsh]]; [discriminate Et|].
      unfold never_raises, orders_shaped in Hnr, Hsh. simpl in Hnr, Hsh.
      destruct (LimitOrderAgent_order s (Np.add_scalar c inj) d mv t) as [[o s']|] eqn:E1;
        [|exfalso; exact (Hnr _ _ _ _ E1)].
      pose proof (Hsh _ _ _ _ _ _ Hc1 Hm E1) as Ho.
      apply LimitOrderAgent_order_limit in E1. rewrite Et in E1. subst s'.
      eexists. split; [reflexivity|]. split; [right; right; reflexivity|].
      split; [split|].
      * exact Hnr.
      * exact Hsh.
      * apply settle_lengths; assumption.
Qed.

Lemma tick_agents_shape n inj mv t l :
  Forall (fun a => is_provided a /\
                   (t = 0 \/ (never_raises a /\ orders_shaped n a)) /\
                   length (cash a) = n /\ length (depot a) = n) l ->
  length mv = n ->
  exists l',
    tick_agents inj mv t l = Some l' /\
    Forall (fun a => is_provided a /\ (never_raises a /\ orders_shaped n a) /\
                     length (cash a) = n /\ length (depot a) = n) l'.
Proof.
  intros Hl Hm. induction Hl as [|a l (Hp & Hr & Hc & Hd) _ [l' [El Hl']]].
  - exists []. split; [reflexivity | constructor].
  - destruct (tick_agent_shape n inj mv t a Hp Hr Hm Hc Hd) as [a' [Ea Ha']].
    exists (a' :: l'). simpl. rewrite Ea, El. split; [reflexivity|].
    constructor; assumption.
Qed.

(** X13: the arrays keep their shape.  In a run from the initial state of
    an engine built from the three strategies, with a price model that
    returns as many lanes as it is given, no tick raises and
    [market_value] and the cash and the depot of every agent have
    [nbr_simulations] lanes after every tick. *)
Theorem run_keeps_shape (ags : list Agent) (sched : Z -> spec_float)
    (sim : lanes -> Z -> lanes) (n k : nat) :
  Forall is_provided ags -> keeps_shape sim n ->
  exists m,
    run k (Market_init ags sched sim n) = Some m /\
    length (market_value m) = n /\
    Forall (fun a => length (cash a) = n /\ length (depot a) = n) (agents m).
Proof.
  intros Hp Hk.
  assert (H : exists m,
            run k (Market_init ags sched sim n) = Some m /\
            tick_count m = Z.of_nat k /\ market_sim m = sim /\
            length (market_value m) = n /\
            Forall (fun a => is_provided a /\
                             (tick_count m = 0 \/ (never_raises a /\ orders_shaped n a)) /\
                             length (cash a) = n /\ length (depot a) = n) (agents m)).
  { induction k as [|k (m & Em & Ht & Hs & Hm & Hag)].
    - exists (Market_init ags sched sim n). simpl.
      split; [reflexivity|]. split; [reflexivity|]. split; [reflexivity|].
      split; [apply repeat_length|].
      induction Hp as [|a l Ha _ IHl]; simpl; [constructor|].
      constructor; [|exact IHl]. simpl.
      split; [exact Ha|]. split; [left; reflexivity|].
      unfold Np.zeros. rewrite repeat_length. auto.
    - destruct (tick_agents_shape n (cash_injection m (tick_count m)) (market_value m)
                  (tick_count m) (agents m) Hag Hm) as [l' [El Hl']].
      simpl. rewrite Em. unfold Market_tick. rewrite El.
      eexists. split; [reflexivity|]. simpl.
      split; [lia|]. split; [exact Hs|]. split; [rewrite Hs; apply Hk; exact Hm|].
      eapply Forall_impl; [|exact Hl']. simpl.
      intros a (Ha & Hr & Hc & Hd). auto. }
  destruct H as (m & Em & _ & _ & Hm & Hag).
  exists m. split; [exact Em|]. split; [exact Hm|].
  eapply Forall_impl; [|exact Hag]. simpl. intros a (_ & _ & Hc & Hd). auto.
Qed.

Lemma run_keeps_shape_witness :
  exists m,
    run 25 calm_market = Some m /\
    length (market_value m) = 1%nat /\
    Forall (fun a => length (cash a) = 1%nat /\ length (depot a) = 1%nat) (agents m).
Proof.
  apply (run_keeps_shape [new_KeepCashAgent; new_AllInAgent; new_LimitOrderAgent]
           (fun t => if t mod 20 =? 0 then F64.of_Z 20 else F64.zero)
           (fun market_value _ => market_value) 1 25).
  - apply Forall_cons; [left; reflexivity|].
    apply Forall_cons; [right; left; reflexivity|].
    apply Forall_cons; [right; right; reflexivity|].
    apply Forall_nil.
  - intros v t Hv. exact Hv.
Defined.

(** * The price model *)

(** A float32 is a binary64: the conversion keeps the sign and is finite. *)
Lemma f64_of_f32_finite s m e :
  bounded F32.prec F32.emax m e = true ->
  exists m' e', f64_of_f32 (S754_finite s m e) = S754_finite s m' e'.
Proof.
  intros Hb. destruct (bounded_canonical F32.prec F32.emax m e Hb) as [Hc He].
  assert (Hr : f64_of_f32 (S754_finite s m e) = binary_round F64.prec F64.emax s m e)
    by (destruct s; reflexivity).
  rewrite Hr. unfold binary_round.
  set (f := fexp F64.prec F64.emax (Z.pos (digits2_pos m) + e)).
  destruct (shl_align_spec F64.prec F64.emax m e f) as [Hez Hmz].
  destruct (shl_align m e f) as [mz ez]. cbn [fst snd] in Hez, Hmz.
  change (Z.pos (digits2_pos m)) with (Zdigits2 (Zpos m)) in f.
  rewrite (Zdigits2_log2 F32.prec F32.emax (Zpos m)) in Hc by lia.
  pose proof (Z.log2_nonneg (Zpos m)) as Hl.
  assert (Hf : f < e /\ f <= F64.emax - F64.prec).
  { unfold f. rewrite (Zdigits2_log2 F32.prec F32.emax (Zpos m)) by lia.
    unfold fexp, emin, F32.prec, F32.emax, F64.prec, F64.emax in *. lia. }
  rewrite Z.min_r in Hez by lia. subst ez.
  exists mz, f.
  replace (Zpos mz) with (Zpos mz * 2 ^ 0) by (rewrite Z.pow_0_r; lia).
  replace f with (f - 0) at 1 by lia.
  apply (binary_round_aux_exact F64.prec F64.emax s mz f 0); [lia|].
  unfold bounded, canonical_mantissa.
  apply andb_true_intro. split; [|apply Z.leb_le; lia].
  apply Z.eqb_eq.
  change (Z.pos (digits2_pos mz)) with (Zdigits2 (Zpos mz)).
  rewrite (Zdigits2_log2 F64.prec F64.emax (Zpos mz)) by lia.
  rewrite Hmz, Z.log2_mul_pow2 by lia.
  replace (e - Z.min e f + Z.log2 (Z.pos m) + 1 + f)
    with (Z.log2 (Z.pos m) + 1 + e) by lia.
  unfold f. rewrite (Zdigits2_log2 F32.prec F32.emax (Zpos m)) by lia.
  reflexivity.
Qed.

Lemma f32_of_f64_sign s x :
  SF.has_sign s x = true -> SF.has_sign s (f32_of_f64 x) = true.
Proof.
  destruct x as [sx|sx| |sx mx ex]; simpl; try congruence.
  intros H. apply Bool.eqb_prop in H. subst sx.
  destruct s; apply binary_round_sign.
Qed.

Lemma has_sign_true_not_pos x : SF.has_sign true x = true -> F32.gt0 x = false.
Proof. destruct x as [[]|[]| |[] mx ex]; simpl; try congruence; reflexivity. Qed.

(** X14: the price model, as to signs.  From a positive finite price and
    a finite factor [1.0 + return], [RealSimpleMarketSim] never makes a NaN;
    the new price is [>= 0] when the factor is [>= 0]; and when the factor
    is negative -- a return drawn below -1 -- the new price is not positive,
    which the divisions of the agents then meet. *)
Theorem price_model_sign (returns mv : lanes) (i : nat) (m r : spec_float) :
  nth_error mv i = Some m -> nth_error returns i = Some r ->
  F32.pos_wf m = true ->
  SF.is_finite (f64_add (F64.of_Z 1) r) = true ->
  exists p,
    nth_error (RealSimpleMarketSim_call returns mv) i = Some p /\
    SF.is_nan p = false /\
    (SF.nonneg (f64_add (F64.of_Z 1) r) = true -> F32.ge0 p = true) /\
    (SF.nonneg (f64_add (F64.of_Z 1) r) = false -> F32.gt0 p = false).
Proof.
  intros Hm Hr Pm Ff.
  eexists. split.
  { unfold RealSimpleMarketSim_call. rewrite nth_error_map2, Hm, Hr. reflexivity. }
  destruct (pos_wf_split m Pm) as [Pf Wm].
  destruct m as [sm|sm| |[] mm em]; try discriminate Pf.
  destruct (f64_of_f32_finite false mm em Wm) as (m' & e' & ->).
  set (fac := f64_add (F64.of_Z 1) r) in *.
  assert (Hs : forall sf, SF.has_sign sf fac = true ->
            SF.has_sign sf (f32_of_f64 (f64_mul (S754_finite false m' e') fac)) = true).
  { intros sf Hsf. apply f32_of_f64_sign.
    destruct fac as [sz|sz| |sz mz ez]; try discriminate Ff; simpl in Hsf |- *.
    - exact Hsf.
    - apply Bool.eqb_prop in Hsf. subst sz. apply binary_round_aux_sign. lia. }
  assert (Hcase : SF.has_sign false fac = true \/ SF.has_sign true fac = true).
  { destruct fac as [[]|[]| |[] mz ez]; try discriminate Ff; auto. }
  split; [|split].
  - destruct Hcase as [H|H]; apply Hs in H; eapply has_sign_not_nan; exact H.
  - intros Hn. rewrite ge0_nonneg.
    destruct fac as [[]|[]| |[] mz ez]; try discriminate Ff; try discriminate Hn.
    + reflexivity.
    + reflexivity.
    + apply has_sign_nonneg, Hs. reflexivity.
  - intros Hn. apply has_sign_true_not_pos. apply Hs.
    destruct fac as [[]|[]| |[] mz ez]; try discriminate Ff; try discriminate Hn.
    reflexivity.
Qed.

Lemma price_model_sign_witness :
  exists p,
    nth_error (RealSimpleMarketSim_call [F64.of_Z (-2)] [F32.one]) 0 = Some p /\
    SF.is_nan p = false /\
    (SF.nonneg (f64_add (F64.of_Z 1) (F64.of_Z (-2))) = true -> F32.ge0 p = true) /\
    (SF.nonneg (f64_add (F64.of_Z 1) (F64.of_Z (-2))) = false -> F32.gt0 p = false).
Proof.
  apply (price_model_sign [F64.of_Z (-2)] [F32.one] 0%nat F32.one (F64.of_Z (-2)));
    reflexivity.
Defined.
